(** * arcopa: a lazy, ambiguity-preserving argument parser

    A shallow embedding of [arg_parse_base.py] and [arg_parse.py].

    - Python strings are lists of characters ([str]); characters are the
      code points below 256.
    - A generator is the list of values it yields together with the way it
      stops: normally, by raising, or (only for the unbounded recursion of
      [ZeroOrMore.traverse]) by exhausting the recursion budget.
    - The functions handed to [Transform] are total functions on converted
      values.
    - [int] refuses a literal of more than [int_max_str_digits] digits
      with [ValueError], the default of CPython 3.11 and later. *)

From Stdlib Require Import Ascii String.
From Stdlib Require Import List ZArith Lia Bool Arith.
Import ListNotations.

Set Implicit Arguments.
Set Warnings "-register-all".

(** ** Strings *)

Definition str := list ascii.

Definition lit (s : string) : str := list_ascii_of_string s.

(** [s.startswith(p)] *)
Fixpoint startswith (p s : str) : bool :=
  match p, s with
  | [], _ => true
  | a :: p', b :: s' => Ascii.eqb a b && startswith p' s'
  | _ :: _, [] => false
  end.

(** Length of the longest prefix whose characters all satisfy [p]: the
    span of a greedy [p*]. *)
Fixpoint span (p : ascii -> bool) (s : str) : nat :=
  match s with
  | c :: s' => if p c then S (span p s') else 0
  | [] => 0
  end.

(** [\s] on code points below 256. *)
Definition is_space (c : ascii) : bool :=
  let n := nat_of_ascii c in
  ((9 <=? n) && (n <=? 13)) || ((28 <=? n) && (n <=? 32))
  || (n =? 133) || (n =? 160).

(** [[0-9]] *)
Definition is_digit (c : ascii) : bool :=
  let n := nat_of_ascii c in (48 <=? n) && (n <=? 57).

(** [[+-]] *)
Definition is_sign (c : ascii) : bool :=
  let n := nat_of_ascii c in (n =? 43) || (n =? 45).

(** [int(d)] for a string of decimal digits, most significant first. *)
Definition digits_value (d : str) : Z :=
  fold_left (fun acc c => (10 * acc + (Z.of_nat (nat_of_ascii c) - 48))%Z) d 0%Z.

(** [int(t)] for [t] matching [[+-]?[0-9]+]. *)
Definition int_of_str (t : str) : Z :=
  match t with
  | c :: d =>
      if is_sign c
      then if nat_of_ascii c =? 45 then (- digits_value d)%Z else digits_value d
      else digits_value t
  | [] => 0%Z
  end.

(** [sys.int_info.default_max_str_digits] *)
Definition int_max_str_digits : nat := 4300.

(** ** Converted values and matches *)

Inductive Value : Type :=
| NON_CAPTURING
| VStr (s : str)
| VInt (n : Z)
| VList (l : list Value)
| VDict (d : list (str * Value)).

Record Match : Type := mkMatch {
  converted : Value;
  captured : str;
  rest : str
}.

Definition replace_converted (m : Match) (v : Value) : Match :=
  mkMatch v (captured m) (rest m).

(** [v is not NON_CAPTURING] *)
Definition is_capturing (v : Value) : bool :=
  match v with NON_CAPTURING => false | _ => true end.

(** [v != []] *)
Definition not_empty_list (v : Value) : bool :=
  match v with VList [] => false | _ => true end.

(** ** Generators *)

Inductive Exn : Type := IndexError | AttributeError | TypeError | ValueError.

Inductive Stop : Type :=
| Finished
| Raised (e : Exn)
| Unfinished.

Definition Gen (A : Type) : Type := (list A * Stop)%type.

Definition yielded {A} (g : Gen A) : list A := fst g.
Definition stop {A} (g : Gen A) : Stop := snd g.

Definition gen_done {A} : Gen A := ([], Finished).
Definition gen_raise {A} (e : Exn) : Gen A := ([], Raised e).
Definition gen_yield {A} (a : A) (g : Gen A) : Gen A := (a :: fst g, snd g).

(** Run [g]; when it is exhausted normally, continue with [k]. *)
Definition gen_then {A} (g k : Gen A) : Gen A :=
  match snd g with
  | Finished => (fst g ++ fst k, snd k)
  | _ => g
  end.

Section Loops.
Context {A B : Type}.
Variable body : A -> Gen B.

(** [for x in xs: <body x>] over a list already in memory. *)
Fixpoint gen_for (xs : list A) : Gen B :=
  match xs with
  | [] => gen_done
  | x :: xs' => gen_then (body x) (gen_for xs')
  end.

(** [for x in g: <body x>] over a generator [g]. *)
Definition gen_bind (g : Gen A) : Gen B :=
  gen_then (gen_for (fst g)) ([], snd g).
End Loops.

(** [for x in g: yield f(x)] *)
Definition gen_map {A B} (f : A -> B) (g : Gen A) : Gen B :=
  (map f (fst g), snd g).

(** [for x in g: if p(x): yield x] *)
Definition gen_filter {A} (p : A -> bool) (g : Gen A) : Gen A :=
  (filter p (fst g), snd g).

(** [next(g)] guarded by [except StopIteration: return None]. *)
Definition next_or_none {A} (g : Gen A) : Stop + option A :=
  match g with
  | (x :: _, _) => inr (Some x)
  | ([], Finished) => inr None
  | ([], st) => inl st
  end.

(** [list(g)]: drains the generator before anything is done with it. *)
Definition drain {A} (g : Gen A) : Stop + list A :=
  match snd g with
  | Finished => inr (fst g)
  | st => inl st
  end.

(** ** Leaf specs *)

(** [End.match]: [re.match(r'^\s*$', string)] *)
Definition End_match (s : str) : Gen Match :=
  if forallb is_space s
  then gen_yield (mkMatch NON_CAPTURING s []) gen_done
  else gen_done.

(** End of the match of [^\s*<exact>]: the whitespace run is greedy and
    gives characters back until the literal fits. *)
Fixpoint exact_end (exact s : str) (k : nat) : option nat :=
  if startswith exact (skipn k s) then Some (k + length exact)
  else match k with
       | 0 => None
       | S k' => exact_end exact s k'
       end.

Definition Exact_match (exact : str) (s : str) : Gen Match :=
  match exact_end exact s (span is_space s) with
  | Some e => gen_yield (mkMatch (VStr exact) (firstn e s) (skipn e s)) gen_done
  | None => gen_done
  end.

(** Span of the match of [^\s*([+-]?[0-9]+)(?=\D|$)]: start of group 1 and
    end of the match. *)
Definition integer_span (s : str) : option (nat * nat) :=
  let ws := span is_space s in
  let sg := match skipn ws s with
            | c :: _ => if is_sign c then 1 else 0
            | [] => 0
            end in
  let ds := span is_digit (skipn (ws + sg) s) in
  if ds =? 0 then None else Some (ws, ws + sg + ds).

(** [int(t)] for [t] matching [[+-]?[0-9]+]: the sign does not count
    towards the limit, leading zeros do. *)
Definition py_int (t : str) : Exn + Z :=
  if int_max_str_digits <? length (filter is_digit t)
  then inl ValueError
  else inr (int_of_str t).

(** [int(rematch[1])] is evaluated before the [yield]. *)
Definition Integer_match (s : str) : Gen Match :=
  match integer_span s with
  | Some (b, e) =>
      match py_int (skipn b (firstn e s)) with
      | inr n => gen_yield (mkMatch (VInt n) (firstn e s) (skipn e s)) gen_done
      | inl exn => gen_raise exn
      end
  | None => gen_done
  end.

(** Span of the match of [^\s*(\S+)(?=\s|$)]. *)
Definition word_span (s : str) : option (nat * nat) :=
  let ws := span is_space s in
  let run := span (fun c => negb (is_space c)) (skipn ws s) in
  if run =? 0 then None else Some (ws, ws + run).

Definition Word_match (s : str) : Gen Match :=
  match word_span s with
  | Some (b, e) =>
      gen_yield (mkMatch (VStr (skipn b (firstn e s)))
                         (firstn e s) (skipn e s)) gen_done
  | None => gen_done
  end.

(** The match built from [left, right = string[:i], string[i:]]. *)
Definition split_match (s : str) (i : nat) : Match :=
  mkMatch (VStr (firstn i s)) (firstn i s) (skipn i s).

(** [range(hi, 0, -1)] *)
Definition range_down (hi : nat) : list nat := rev (seq 1 hi).

(** [String.match] *)
Definition String_match (s : str) : Gen Match :=
  (map (split_match s) (range_down (length s - 1)), Finished).

(** [char in self.exclude] *)
Definition excluded (exclude : list ascii) (c : ascii) : bool :=
  existsb (Ascii.eqb c) exclude.

(** The value of [first_bad_index] when the loop
    [for first_bad_index, char in enumerate(string): if char in exclude: break]
    is left; [i] is the next index and [cur] the value bound so far. *)
Fixpoint first_bad_index (exclude : list ascii) (s : str) (i cur : nat) : nat :=
  match s with
  | [] => cur
  | c :: s' => if excluded exclude c then i else first_bad_index exclude s' (S i) i
  end.

(** [StringWithout.match] *)
Definition StringWithout_match (exclude : list ascii) (s : str) : Gen Match :=
  match s with
  | [] => gen_done
  | _ =>
      let fbi := first_bad_index exclude s 0 0 in
      (map (split_match s) (seq 1 fbi), Finished)
  end.

(** ** Spec trees

    Python is dynamically typed: the helpers of [arg_parse.py] build spec
    nodes whose children are still plain Python values (a list, a dict, a
    string, the types [int] and [str]) until [_convert] rewrites them.  The
    [Py*] constructors are those values; they have no [match] method. *)

Inductive Spec : Type :=
| End
| Exact (exact : str)
| Transform (spec : Spec) (transform_function : Value -> Value)
| NonCapturing (subspec : Spec)
| Integer
| Word
| String
| StringWithout (exclude : list ascii)
| Either (options : list Spec)
| Sequence (sequence : list Spec)
| ZeroOrMore (subspec : Spec)
| OneOrMore (subspec : Spec)
| NamedOr (options_dict : list (str * Spec))
| NamedAnd (sequence_dict : list (str * Spec))
| PyList (items : list Spec)
| PyDict (items : list (str * Spec))
| PyStr (s : str)
| PyIntType
| PyStrType
| PyOther.

(** A bound [match] method. *)
Definition Matcher : Type := str -> Gen Match.

(** Code that runs to completion before anything is yielded: a value or
    the way it stopped. *)
Definition Eager (A : Type) : Type := (Stop + A)%type.

Definition ebind {A B} (x : Eager A) (f : A -> Eager B) : Eager B :=
  match x with
  | inl st => inl st
  | inr a => f a
  end.

Notation "x <- c ;; k" := (ebind c (fun x => k))
  (at level 61, c at next level, right associativity).

(** [l[-1]] *)
Fixpoint last_of {A} (l : list A) : option A :=
  match l with
  | [] => None
  | [x] => Some x
  | _ :: l' => last_of l'
  end.

Definition index_last {A} (l : list A) : Eager A :=
  match last_of l with
  | Some x => inr x
  | None => inl (Raised IndexError)
  end.

(** ['' .join(m.captured for m in ms)] *)
Definition join_captured (ms : list Match) : str :=
  concat (map captured ms).

(** [[m.converted for m in ms if m.converted is not NON_CAPTURING]] *)
Definition capturing_values (ms : list Match) : Value :=
  VList (filter is_capturing (map converted ms)).

(** *** Sequence *)

(** One turn of the [for leaf in current_leaves] loop of
    [Sequence.breadth_first], building [new_leaves].  A [Match] is always
    truthy, so the [if m] of the comprehension keeps every match. *)
Fixpoint extend_leaves (child : Matcher) (current_leaves : list (list Match))
  : Eager (list (list Match)) :=
  match current_leaves with
  | [] => inr []
  | leaf :: leaves =>
      lm <- index_last leaf ;;
      ms <- drain (child (rest lm)) ;;
      more <- extend_leaves child leaves ;;
      inr (map (fun m => leaf ++ [m]) ms ++ more)
  end.

(** The [while current_leaves and children] loop; [children] lists the
    specs still to be matched, next one first. *)
Fixpoint expand (children : list Matcher) (current_leaves : list (list Match))
  : Eager (list (list Match)) :=
  match children with
  | [] => inr current_leaves
  | child :: children' =>
      match current_leaves with
      | [] => inr current_leaves
      | _ :: _ =>
          new_leaves <- extend_leaves child current_leaves ;;
          expand children' new_leaves
      end
  end.

(** The body of the final [for subtree in current_leaves] loop. *)
Definition assemble (subtree : list Match) : Gen Match :=
  match last_of subtree with
  | Some last_match =>
      gen_yield (mkMatch (capturing_values subtree) (join_captured subtree)
                         (rest last_match)) gen_done
  | None => gen_raise IndexError
  end.

Definition breadth_first (sequence : list Matcher) (s : str) : Gen Match :=
  match sequence with
  | [] => gen_raise IndexError
  | first :: children =>
      match (ms <- drain (first s) ;; expand children (map (fun m => [m]) ms)) with
      | inr current_leaves => gen_for assemble current_leaves
      | inl st => ([], st)
      end
  end.

(** [Sequence.match] with the default [greedy=False]. *)
Definition Sequence_match (sequence : list Matcher) (s : str) : Gen Match :=
  gen_then
    (match sequence with
     | [] => gen_yield (mkMatch (VList []) [] s) gen_done
     | _ :: _ => gen_done
     end)
    (breadth_first sequence s).

(** *** ZeroOrMore and OneOrMore *)

(** [ZeroOrMore.traverse]; [fuel] bounds the depth of the recursion. *)
Fixpoint traverse (subspec : Matcher) (fuel : nat) (s : str)
  (history : list Match) : Gen (list Match) :=
  gen_yield history
    (gen_bind
       (fun m => match fuel with
                 | 0 => ([], Unfinished)
                 | S fuel' => traverse subspec fuel' (rest m) (history ++ [m])
                 end)
       (subspec s)).

(** The match [ZeroOrMore.match] builds from one history. *)
Definition of_history (s : str) (history : list Match) : Match :=
  mkMatch (capturing_values history) (join_captured history)
          (match last_of history with
           | None => s
           | Some m => rest m
           end).

Definition ZeroOrMore_match (subspec : Matcher) (fuel : nat) (s : str)
  : Gen Match :=
  gen_map (of_history s) (traverse subspec fuel s []).

Definition OneOrMore_match (subspec : Matcher) (fuel : nat) (s : str)
  : Gen Match :=
  gen_filter (fun m => not_empty_list (converted m))
             (ZeroOrMore_match subspec fuel s).

(** *** NamedOr and NamedAnd *)

Definition NamedOr_match (options_dict : list (str * Matcher)) (s : str)
  : Gen Match :=
  gen_for
    (fun '(name, spec) =>
       gen_map (fun m => replace_converted m (VDict [(name, converted m)]))
               (spec s))
    options_dict.

(** [{name: v for (name, v) in zip(keys, converted)}] *)
Definition zip_dict (keys : list str) (v : Value) : Value :=
  match v with
  | VList l => VDict (combine keys l)
  | _ => VDict []
  end.

Definition NamedAnd_match (sequence_dict : list (str * Matcher)) (s : str)
  : Gen Match :=
  gen_map
    (fun m => replace_converted m
                (zip_dict (map fst sequence_dict) (converted m)))
    (Sequence_match (map snd sequence_dict) s).

(** *** The [match] method of every node *)

Fixpoint match_ (fuel : nat) (sp : Spec) {struct sp} : Matcher :=
  match sp with
  | End => End_match
  | Exact exact => Exact_match exact
  | Transform spec f =>
      fun s => gen_map (fun m => replace_converted m (f (converted m)))
                       (match_ fuel spec s)
  | NonCapturing subspec =>
      fun s => gen_map (fun m => replace_converted m NON_CAPTURING)
                       (match_ fuel subspec s)
  | Integer => Integer_match
  | Word => Word_match
  | String => String_match
  | StringWithout exclude => StringWithout_match exclude
  | Either options =>
      fun s => gen_for (fun spec : Matcher => spec s) (map (match_ fuel) options)
  | Sequence sequence => Sequence_match (map (match_ fuel) sequence)
  | ZeroOrMore subspec => ZeroOrMore_match (match_ fuel subspec) fuel
  | OneOrMore subspec => OneOrMore_match (match_ fuel subspec) fuel
  | NamedOr options_dict =>
      NamedOr_match (map (fun p => (fst p, match_ fuel (snd p))) options_dict)
  | NamedAnd sequence_dict =>
      NamedAnd_match (map (fun p => (fst p, match_ fuel (snd p))) sequence_dict)
  | PyList _ | PyDict _ | PyStr _ | PyIntType | PyStrType | PyOther =>
      fun _ => gen_raise AttributeError
  end.

(** [Spec.first_match] *)
Definition first_match (fuel : nat) (sp : Spec) (s : str) : Eager (option Match) :=
  next_or_none (match_ fuel sp s).

(** ** The sugar layer, [arg_parse.py] *)

Module arg_parse.

Section Traversals.
Context {A B : Type}.
Variable fn : A -> Exn + B.

(** [list(fn(x) for x in xs)]; the first exception raised by [fn]
    escapes. *)
Fixpoint each (xs : list A) : Exn + list B :=
  match xs with
  | [] => inr []
  | x :: xs' =>
      match fn x with
      | inl e => inl e
      | inr y =>
          match each xs' with
          | inl e => inl e
          | inr ys => inr (y :: ys)
          end
      end
  end.

(** [{name: fn(x) for name, x in d.items()}] *)
Fixpoint each_item (d : list (str * A)) : Exn + list (str * B) :=
  match d with
  | [] => inr []
  | (name, x) :: d' =>
      match fn x with
      | inl e => inl e
      | inr y =>
          match each_item d' with
          | inl e => inl e
          | inr ys => inr ((name, y) :: ys)
          end
      end
  end.
End Traversals.

Definition lift {A B C} (k : B -> C) (x : A + B) : A + C :=
  match x with
  | inl e => inl e
  | inr y => inr (k y)
  end.

(** [Spec.fmap] and its overrides; only called on spec nodes. *)
Definition fmap (fn : Spec -> Exn + Spec) (sp : Spec) : Exn + Spec :=
  match sp with
  | Transform spec f => lift (fun spec' => Transform spec' f) (fn spec)
  | NonCapturing subspec => lift NonCapturing (fn subspec)
  | Either options => lift Either (each fn options)
  | Sequence sequence => lift Sequence (each fn sequence)
  | ZeroOrMore subspec => lift ZeroOrMore (fn subspec)
  | OneOrMore subspec => lift OneOrMore (fn subspec)
  | NamedOr options_dict => lift NamedOr (each_item fn options_dict)
  | NamedAnd sequence_dict => lift NamedAnd (each_item fn sequence_dict)
  | _ => inr sp
  end.

(** For a string the source evaluates
    [NonCapturing(Exact(spec)).fmap(_convert)], which calls [_convert] on
    the fresh leaf [Exact(spec)]; a leaf is its own [fmap], so that call
    is unfolded here (see [_convert_str]). *)
Fixpoint _convert (spec : Spec) : Exn + Spec :=
  match spec with
  | PyList items => fmap _convert (Sequence items)
  | PyDict items => fmap _convert (NamedAnd items)
  | PyStr s => inr (NonCapturing (Exact s))
  | PyIntType => inr Integer
  | PyStrType => inr String
  | PyOther => inl TypeError
  | _ => fmap _convert spec
  end.

Definition ignore (spec : Spec) : Spec := NonCapturing spec.
Definition word : Spec := Word.
Definition without (excluded_characters : str) : Spec :=
  StringWithout excluded_characters.
Definition literal (s : str) : Spec := Exact s.
Definition one_or_more (spec : Spec) : Spec := OneOrMore spec.
Definition zero_or_more (spec : Spec) : Spec := OneOrMore spec.
Definition either (specs : list Spec) : Spec := Either specs.
Definition tag (mapping : list (str * Spec)) : Spec := NamedOr mapping.
Definition record (mapping : list (str * Spec)) : Spec := NamedOr mapping.
Definition transform (spec : Spec) (fn : Value -> Value) : Spec :=
  Transform spec fn.

(** The pattern [match] hands to [_convert]. *)
Definition with_end (pattern : Spec) : Spec :=
  match pattern with
  | PyList items => PyList (items ++ [End])
  | _ => PyList [pattern; End]
  end.

(** [match(pattern, string)] *)
Definition match_ (fuel : nat) (pattern : Spec) (s : str)
  : Eager (option Match) :=
  match _convert (with_end pattern) with
  | inl e => inl (Raised e)
  | inr sp => first_match fuel sp s
  end.

End arg_parse.

(** ** Notions used to state the properties *)

(** The non-empty prefixes of [s], shortest first. *)
Definition nonempty_prefixes (s : str) : list str :=
  map (fun i => firstn i s) (seq 1 (length s)).

(** [p] consists entirely of characters outside [exclude]. *)
Definition clean (exclude : list ascii) (p : str) : bool :=
  forallb (fun c => negb (excluded exclude c)) p.

(** The match that consumes the prefix [p] of [s] and converts to it. *)
Definition prefix_match (s p : str) : Match :=
  mkMatch (VStr p) p (skipn (length p) s).

(** One admissible match per child, each child matched against the rest
    left by the previous one. *)
Inductive admissible : list Matcher -> str -> list Match -> Prop :=
| admissible_nil s : admissible [] s []
| admissible_cons child children s m ms :
    In m (yielded (child s)) ->
    admissible children (rest m) ms ->
    admissible (child :: children) s (m :: ms).

(** All admissible combinations in the order of nested [for] loops, the
    first child in the outermost loop. *)
Fixpoint nested_loops (children : list Matcher) (s : str) : list (list Match) :=
  match children with
  | [] => [[]]
  | child :: children' =>
      flat_map (fun m => map (cons m) (nested_loops children' (rest m)))
               (yielded (child s))
  end.

(** The result a sequence builds from the matches of one combination;
    [s] is the rest when nothing was matched. *)
Definition result_of (s : str) (path : list Match) : Match :=
  mkMatch (capturing_values path) (join_captured path)
          (match last_of path with
           | Some m => rest m
           | None => s
           end).

(** The string a leaf of the frontier is continued on. *)
Definition leaf_rest (leaf : list Match) : str :=
  match last_of leaf with
  | Some m => rest m
  | None => []
  end.

(** The work [breadth_first] does before its first [yield]. *)
Definition frontier (first : Matcher) (children : list Matcher) (s : str)
  : Eager (list (list Match)) :=
  ms <- drain (first s) ;; expand children (map (fun m => [m]) ms).

(** Captured text and rest of every match of [spec] make up its input. *)
Definition partitions (spec : Matcher) : Prop :=
  forall s m, In m (yielded (spec s)) -> captured m ++ rest m = s.

(** Every match of [spec] leaves a rest strictly shorter than its input. *)
Definition shrinks (spec : Matcher) : Prop :=
  forall s m, In m (yielded (spec s)) -> length (rest m) < length s.

(** Matching [spec] never exhausts the recursion budget. *)
Definition terminates (spec : Matcher) : Prop :=
  forall s, stop (spec s) <> Unfinished.

(** A subspec none of whose matches converts to the marker. *)
Definition always_capturing (subspec : Matcher) : Prop :=
  forall s m, In m (yielded (subspec s)) -> is_capturing (converted m) = true.

(** What a caller of the top-level [match] holds afterwards: [None], a
    [Match] record, or a bare converted value. *)
Inductive Returned : Type :=
| ReturnedNone
| ReturnedMatch (m : Match)
| ReturnedValue (v : Value).

Definition returned (r : option Match) : Returned :=
  match r with
  | Some m => ReturnedMatch m
  | None => ReturnedNone
  end.

(** The command pattern of [example.py]:
    [["/", "ban", ["[", without("|"), "|", without("]"), "]"], int]]. *)
Definition ban_pattern : Spec :=
  PyList
    [ PyStr (lit "/"); PyStr (lit "ban");
      PyList [ PyStr (lit "["); arg_parse.without (lit "|"); PyStr (lit "|");
               arg_parse.without (lit "]"); PyStr (lit "]") ];
      PyIntType ].

Definition ban_message : str := lit "/ban [hello|world] 42".

(** Leaf specs whose every match consumes at least one character. *)
Definition advancing_leaf (sp : Spec) : bool :=
  match sp with
  | Integer | Word | String | StringWithout _ => true
  | Exact exact => match exact with [] => false | _ :: _ => true end
  | _ => false
  end.

Definition is_nil {A} (l : list A) : bool :=
  match l with [] => true | _ :: _ => false end.

(** Trees made of spec nodes only (no plain Python value anywhere);
    repetition nodes are allowed when [rep] is set, sequences and named
    sequences without children when [empty] is set. *)
Fixpoint spec_shape (rep empty : bool) (sp : Spec) : bool :=
  match sp with
  | End | Exact _ | Integer | Word | String | StringWithout _ => true
  | Transform spec _ => spec_shape rep empty spec
  | NonCapturing subspec => spec_shape rep empty subspec
  | Either options => forallb (spec_shape rep empty) options
  | Sequence sequence =>
      (empty || negb (is_nil sequence))
      && forallb (spec_shape rep empty) sequence
  | ZeroOrMore subspec | OneOrMore subspec =>
      rep && spec_shape rep empty subspec
  | NamedOr d => forallb (fun p => spec_shape rep empty (snd p)) d
  | NamedAnd d =>
      (empty || negb (is_nil d))
      && forallb (fun p => spec_shape rep empty (snd p)) d
  | PyList _ | PyDict _ | PyStr _ | PyIntType | PyStrType | PyOther => false
  end.

(** Descriptions the sugar layer can classify: no object other than a
    list, a dict, a string, a spec node, [int] or [str] anywhere. *)
Fixpoint valid_description (sp : Spec) : bool :=
  match sp with
  | End | Exact _ | Integer | Word | String | StringWithout _ => true
  | PyStr _ | PyIntType | PyStrType => true
  | PyOther => false
  | Transform spec _ => valid_description spec
  | NonCapturing subspec | ZeroOrMore subspec | OneOrMore subspec =>
      valid_description subspec
  | Either l | Sequence l | PyList l => forallb valid_description l
  | NamedOr d | NamedAnd d | PyDict d =>
      forallb (fun p => valid_description (snd p)) d
  end.

(** The match a one-child sequence builds from a match of its child. *)
Definition singleton_result (m : Match) : Match :=
  mkMatch (VList (if is_capturing (converted m) then [converted m] else []))
          (captured m) (rest m).

(** Specs whose converted value is a Python list. *)
Definition builds_list (sp : Spec) : bool :=
  match sp with
  | Sequence _ | ZeroOrMore _ | OneOrMore _ => true
  | _ => false
  end.

(** The first character of [s], if any, is not a digit. *)
Definition no_leading_digit (s : str) : bool :=
  match s with
  | c :: _ => negb (is_digit c)
  | [] => true
  end.

(** The first character of [s], if any, is whitespace. *)
Definition at_word_end (s : str) : bool :=
  match s with
  | c :: _ => is_space c
  | [] => true
  end.

(** ** Generators: basic facts *)

Lemma gen_then_finished {A} (g k : Gen A) :
  stop g = Finished ->
  gen_then g k = (yielded g ++ yielded k, stop k).
Proof.
  unfold gen_then, stop, yielded. intros ->. reflexivity.
Qed.

Lemma gen_then_stopped {A} (g k : Gen A) :
  stop g <> Finished -> gen_then g k = g.
Proof.
  unfold gen_then, stop. destruct (snd g); congruence.
Qed.

Lemma in_gen_then {A} (g k : Gen A) x :
  In x (yielded (gen_then g k)) -> In x (yielded g) \/ In x (yielded k).
Proof.
  unfold gen_then, yielded. destruct (snd g); simpl; auto.
  intros H. apply in_app_or in H. exact H.
Qed.

Lemma in_gen_for {A B} (body : A -> Gen B) xs y :
  In y (yielded (gen_for body xs)) ->
  exists x, In x xs /\ In y (yielded (body x)).
Proof.
  induction xs as [|x xs IH]; simpl.
  - intros [].
  - intros H. apply in_gen_then in H. destruct H as [H|H].
    + exists x. auto.
    + destruct (IH H) as (x' & Hx' & Hy). exists x'. auto.
Qed.

Lemma in_gen_bind {A B} (body : A -> Gen B) g y :
  In y (yielded (gen_bind body g)) ->
  exists x, In x (yielded g) /\ In y (yielded (body x)).
Proof.
  unfold gen_bind. intros H. apply in_gen_then in H.
  destruct H as [H|H].
  - apply in_gen_for in H. exact H.
  - destruct H.
Qed.

Lemma in_gen_map {A B} (f : A -> B) g y :
  In y (yielded (gen_map f g)) -> exists x, In x (yielded g) /\ y = f x.
Proof.
  unfold gen_map, yielded. simpl. intros H.
  apply in_map_iff in H. destruct H as (x & Hx & Hin). eauto.
Qed.

Lemma drain_inr {A} (g : Gen A) xs :
  drain g = inr xs -> xs = yielded g /\ stop g = Finished.
Proof.
  unfold drain, yielded, stop. destruct (snd g); intros H; inversion H; auto.
Qed.

Lemma last_of_snoc {A} (l : list A) x : last_of (l ++ [x]) = Some x.
Proof.
  induction l as [|y l IH]; simpl; [reflexivity|].
  rewrite IH. destruct (l ++ [x]) eqn:E; [|reflexivity].
  destruct l; discriminate.
Qed.

Lemma last_of_cons {A} (x : A) l :
  last_of (x :: l) = match last_of l with Some y => Some y | None => Some x end.
Proof.
  destruct l as [|y l]; [reflexivity|].
  simpl. destruct l; [reflexivity|].
  destruct (last_of (a :: l)) eqn:E; [reflexivity|].
  exfalso. clear -E. revert a E. induction l; intros; simpl in E; [discriminate|eauto].
Qed.

Lemma last_of_none {A} (l : list A) : last_of l = None -> l = [].
Proof.
  destruct l as [|x l]; [reflexivity|].
  rewrite last_of_cons. destruct (last_of l); discriminate.
Qed.

(** ** StringWithout *)

Section StringWithoutFacts.
Variable exclude : list ascii.

Let allowed (c : ascii) : bool := negb (excluded exclude c).

(** When the loop is left through [break], [first_bad_index] is the
    index of the first excluded character. *)
Lemma first_bad_index_break s : forall i cur,
  existsb (excluded exclude) s = true ->
  first_bad_index exclude s i cur = i + span allowed s.
Proof.
  induction s as [|c s IH]; simpl; intros i cur H; [discriminate|].
  unfold allowed at 1. destruct (excluded exclude c); simpl in *.
  - lia.
  - rewrite IH by assumption. lia.
Qed.

(** When the loop runs to its end, [first_bad_index] is the index of
    the last character. *)
Lemma first_bad_index_exhausted s : forall i cur,
  existsb (excluded exclude) s = false ->
  first_bad_index exclude s i cur =
    match s with [] => cur | _ :: _ => i + length s - 1 end.
Proof.
  induction s as [|c s IH]; simpl; intros i cur H; [reflexivity|].
  apply orb_false_iff in H. destruct H as [Hc Hs]. rewrite Hc.
  rewrite IH by assumption. destruct s; simpl; lia.
Qed.

Lemma span_le_length (p : ascii -> bool) s : span p s <= length s.
Proof.
  induction s as [|c s IH]; simpl; [lia|]. destruct (p c); simpl; lia.
Qed.

Lemma filter_clean_cons c (l : list str) :
  filter (clean exclude) (map (cons c) l) =
    if excluded exclude c then [] else map (cons c) (filter (clean exclude) l).
Proof.
  induction l as [|p l IH]; simpl.
  - destruct (excluded exclude c); reflexivity.
  - rewrite IH. destruct (excluded exclude c); simpl; [reflexivity|].
    destruct (clean exclude p); reflexivity.
Qed.

Lemma nonempty_prefixes_cons c s :
  nonempty_prefixes (c :: s) = [c] :: map (cons c) (nonempty_prefixes s).
Proof.
  unfold nonempty_prefixes. simpl length. simpl seq. simpl map at 1.
  f_equal. rewrite <- seq_shift, !map_map. reflexivity.
Qed.

(** The clean prefixes are the prefixes no longer than the first run of
    allowed characters. *)
Lemma clean_prefixes s :
  filter (clean exclude) (nonempty_prefixes s) =
    map (fun i => firstn i s) (seq 1 (span allowed s)).
Proof.
  induction s as [|c s IH]; [reflexivity|].
  rewrite nonempty_prefixes_cons. cbn [filter span].
  rewrite filter_clean_cons, IH. unfold clean at 1. cbn [forallb].
  change (allowed c) with (negb (excluded exclude c)).
  destruct (excluded exclude c); cbn; [reflexivity|].
  f_equal. rewrite <- (seq_shift (span allowed s) 1), !map_map. reflexivity.
Qed.

Lemma prefix_match_firstn s i :
  i <= length s -> prefix_match s (firstn i s) = split_match s i.
Proof.
  intros H. unfold prefix_match, split_match.
  rewrite length_firstn, Nat.min_l by assumption. reflexivity.
Qed.

Lemma StringWithout_match_break s :
  existsb (excluded exclude) s = true ->
  StringWithout_match exclude s =
    (map (prefix_match s) (filter (clean exclude) (nonempty_prefixes s)),
     Finished).
Proof.
  intros H. destruct s as [|c s]; [discriminate|].
  unfold StringWithout_match.
  rewrite first_bad_index_break by assumption.
  rewrite clean_prefixes, map_map. simpl Nat.add. fold allowed.
  f_equal. apply map_ext_in. intros i Hi. symmetry.
  apply prefix_match_firstn. apply in_seq in Hi.
  pose proof (span_le_length allowed (c :: s)). lia.
Qed.
End StringWithoutFacts.

(** C1 (as amended): for an input in which some character of the
    exclusion set occurs, [StringWithout(E).match(s)] yields exactly one
    match per non-empty prefix made only of characters outside [E], from
    the shortest such prefix to the longest, and then ends normally; on
    ["ab]c"] with [E = {"]"}] it yields [("a","a","b]c")] and then
    [("ab","ab","]c")]; there is no match when [s] is empty or starts with
    a character of [E]. *)
Theorem StringWithout_shortest_first :
  (forall exclude s,
      existsb (excluded exclude) s = true ->
      StringWithout_match exclude s =
        (map (prefix_match s) (filter (clean exclude) (nonempty_prefixes s)),
         Finished))
  /\ yielded (StringWithout_match (lit "]") (lit "ab]c")) =
       [ mkMatch (VStr (lit "a")) (lit "a") (lit "b]c");
         mkMatch (VStr (lit "ab")) (lit "ab") (lit "]c") ]
  /\ (forall exclude, StringWithout_match exclude [] = gen_done)
  /\ (forall exclude c s,
        excluded exclude c = true ->
        StringWithout_match exclude (c :: s) = gen_done).
Proof.
  split; [|split; [|split]].
  - intros exclude s H. apply StringWithout_match_break. exact H.
  - reflexivity.
  - reflexivity.
  - intros exclude c s H. unfold StringWithout_match. simpl. rewrite H.
    reflexivity.
Qed.

Lemma StringWithout_shortest_first_witness :
  existsb (excluded (lit "|")) (lit "hello|world] 42") = true
  /\ StringWithout_match (lit "|") (lit "hello|world] 42") =
       (map (prefix_match (lit "hello|world] 42"))
            (filter (clean (lit "|"))
                    (nonempty_prefixes (lit "hello|world] 42"))),
        Finished).
Proof.
  split; [reflexivity|].
  apply (proj1 StringWithout_shortest_first). reflexivity.
Defined.

(** C1 as stated fails on its own example: the shorter prefix comes
    first.  It also fails where no character of the input is excluded:
    the loop then leaves [first_bad_index] at the last index, and the
    whole input, a prefix free of excluded characters, is not yielded. *)
Lemma StringWithout_not_longest_first :
  yielded (StringWithout_match (lit "]") (lit "ab]c")) <>
    [ mkMatch (VStr (lit "ab")) (lit "ab") (lit "]c");
      mkMatch (VStr (lit "a")) (lit "a") (lit "b]c") ]
  /\ clean (lit "]") (lit "abc") = true
  /\ ~ In (prefix_match (lit "abc") (lit "abc"))
          (yielded (StringWithout_match (lit "]") (lit "abc"))).
Proof.
  split; [vm_compute; discriminate|].
  split; [reflexivity|].
  vm_compute. intros [H|[H|[]]]; discriminate.
Qed.

(** ** The empty sequence *)

(** C2: [Sequence([]).match(s)] yields [Match([], "", s)] and is then
    expected to end normally.  The code yields that match and goes on into
    [breadth_first], where [self.sequence[0]] raises [IndexError]. *)
Theorem Sequence_empty_raises :
  forall fuel s,
    match_ fuel (Sequence []) s =
      ([mkMatch (VList []) [] s], Raised IndexError).
Proof.
  intros fuel s. reflexivity.
Qed.

(** A consumer that only asks for the first match does not see the
    exception, one that drains the matches does. *)
Lemma Sequence_empty_first_match fuel s :
  first_match fuel (Sequence []) s = inr (Some (mkMatch (VList []) [] s)).
Proof. reflexivity. Qed.

Lemma Sequence_empty_nested fuel s :
  match_ fuel (Sequence [Sequence []; End]) s = ([], Raised IndexError).
Proof. reflexivity. Qed.

(** ** The sugar layer *)

Lemma _convert_str s :
  arg_parse._convert (PyStr s) =
    arg_parse.fmap arg_parse._convert (NonCapturing (Exact s)).
Proof. reflexivity. Qed.

Lemma each_snoc {A B} (fn : A -> Exn + B) xs x ys :
  arg_parse.each fn (xs ++ [x]) = inr ys ->
  exists ys' y, ys = ys' ++ [y] /\ fn x = inr y.
Proof.
  revert ys. induction xs as [|a xs IH]; simpl; intros ys H.
  - destruct (fn x) as [e|y]; [discriminate|]. inversion H; subst.
    exists [], y. auto.
  - destruct (fn a) as [e|b]; [discriminate|].
    destruct (arg_parse.each fn (xs ++ [x])) as [e|zs] eqn:E; [discriminate|].
    inversion H; subst. destruct (IH zs eq_refl) as (ys' & y & -> & Hy).
    exists (b :: ys'), y. auto.
Qed.

Lemma with_end_shape pattern :
  exists items, arg_parse.with_end pattern = PyList (items ++ [End]).
Proof.
  destruct pattern; simpl;
    try (eexists [_]; reflexivity).
  exists items. reflexivity.
Qed.

(** C3 (as amended): when the End-terminated pattern converts to a spec
    tree, that tree is a sequence ending in [End], and the top-level
    [match] returns the first [Match] record of the tree on the input
    (converted value, captured text and rest together, not the converted
    value alone), or [None] when the tree yields no match and ends
    normally. *)
Theorem match_returns_first_record :
  forall fuel pattern s sp,
    arg_parse._convert (arg_parse.with_end pattern) = inr sp ->
    (exists items, sp = Sequence (items ++ [End]))
    /\ (forall m ms,
          yielded (match_ fuel sp s) = m :: ms ->
          arg_parse.match_ fuel pattern s = inr (Some m)
          /\ returned (Some m) = ReturnedMatch m)
    /\ (match_ fuel sp s = gen_done ->
        arg_parse.match_ fuel pattern s = inr None).
Proof.
  intros fuel pattern s sp Hc. split; [|split].
  - destruct (with_end_shape pattern) as (items & Hw). rewrite Hw in Hc.
    simpl in Hc. unfold arg_parse.lift in Hc.
    destruct (arg_parse.each arg_parse._convert (items ++ [End])) as [e|ys] eqn:E;
      [discriminate|].
    inversion Hc; subst. destruct (each_snoc _ _ _ E) as (ys' & y & -> & Hy).
    simpl in Hy. inversion Hy; subst. exists ys'. reflexivity.
  - intros m ms Hy. split; [|reflexivity].
    unfold arg_parse.match_. rewrite Hc. unfold first_match, next_or_none.
    unfold yielded in Hy. destruct (match_ fuel sp s) as [l st].
    simpl in Hy. subst l. reflexivity.
  - intros Hn. unfold arg_parse.match_. rewrite Hc. unfold first_match.
    rewrite Hn. reflexivity.
Qed.

Lemma match_returns_first_record_witness :
  arg_parse._convert (arg_parse.with_end PyIntType) = inr (Sequence [Integer; End])
  /\ arg_parse.match_ 0 PyIntType (lit "42") =
       inr (Some (mkMatch (VList [VInt 42]) (lit "42") [])).
Proof.
  split; [reflexivity|].
  apply (proj1 (proj2
           (match_returns_first_record 0 PyIntType (lit "42") eq_refl))
           (mkMatch (VList [VInt 42]) (lit "42") []) []).
  reflexivity.
Defined.

(** C3 as stated fails: on the pattern [int] and the input ["42"] the
    caller holds a [Match] record, not the converted value [[42]]. *)
Lemma match_does_not_return_converted_value :
  exists sp m ms r,
    arg_parse._convert (arg_parse.with_end PyIntType) = inr sp
    /\ yielded (match_ 0 sp (lit "42")) = m :: ms
    /\ arg_parse.match_ 0 PyIntType (lit "42") = inr r
    /\ returned r <> ReturnedValue (converted m).
Proof.
  exists (Sequence [Integer; End]),
         (mkMatch (VList [VInt 42]) (lit "42") []), [],
         (Some (mkMatch (VList [VInt 42]) (lit "42") [])).
  repeat split; discriminate.
Qed.

Lemma ban_pattern_first_match :
  arg_parse.match_ 0 ban_pattern ban_message =
    inr (Some (mkMatch
                 (VList [VList [VStr (lit "hello"); VStr (lit "world")];
                         VInt 42])
                 ban_message [])).
Proof.
  vm_compute. reflexivity.
Qed.

(** C4 (as amended): on the command pattern of [example.py] and the input
    ["/ban [hello|world] 42"] the first match converts to the nested list
    [[["hello", "world"], 42]]: the inner sequence contributes its own
    list as one element. *)
Theorem ban_pattern_converted_nested :
  exists m,
    arg_parse.match_ 0 ban_pattern ban_message = inr (Some m)
    /\ converted m =
         VList [VList [VStr (lit "hello"); VStr (lit "world")]; VInt 42]
    /\ captured m = ban_message
    /\ rest m = [].
Proof.
  eexists. split; [apply ban_pattern_first_match|].
  repeat split.
Qed.

(** C4 as stated fails: the converted value is not the flat list
    [["hello", "world", 42]]. *)
Lemma ban_pattern_converted_not_flat :
  ~ exists m,
      arg_parse.match_ 0 ban_pattern ban_message = inr (Some m)
      /\ converted m = VList [VStr (lit "hello"); VStr (lit "world"); VInt 42].
Proof.
  intros (m & H & Hc). rewrite ban_pattern_first_match in H.
  inversion H; subst. simpl in Hc. discriminate.
Qed.

(** ** Sequence: the frontier is the nested-loop enumeration *)

Lemma flat_map_flat_map {A B C} (f : A -> list B) (g : B -> list C) l :
  flat_map g (flat_map f l) = flat_map (fun x => flat_map g (f x)) l.
Proof.
  induction l as [|x l IH]; simpl; [reflexivity|].
  rewrite flat_map_app, IH. reflexivity.
Qed.

Lemma flat_map_singleton {A B} (f : A -> B) l :
  flat_map (fun x => [f x]) l = map f l.
Proof.
  induction l as [|x l IH]; simpl; [reflexivity|]. rewrite IH. reflexivity.
Qed.

Lemma map_flat_map {A B C} (f : A -> list B) (g : B -> C) l :
  map g (flat_map f l) = flat_map (fun x => map g (f x)) l.
Proof.
  induction l as [|x l IH]; simpl; [reflexivity|].
  rewrite map_app, IH. reflexivity.
Qed.

Lemma flat_map_map {A B C} (f : A -> B) (g : B -> list C) l :
  flat_map g (map f l) = flat_map (fun x => g (f x)) l.
Proof.
  induction l as [|x l IH]; simpl; [reflexivity|]. rewrite IH. reflexivity.
Qed.

Lemma leaf_rest_snoc leaf m : leaf_rest (leaf ++ [m]) = rest m.
Proof. unfold leaf_rest. rewrite last_of_snoc. reflexivity. Qed.

Lemma extend_leaves_inr child leaves new_leaves :
  extend_leaves child leaves = inr new_leaves ->
  new_leaves =
    flat_map (fun leaf => map (fun m => leaf ++ [m])
                              (yielded (child (leaf_rest leaf)))) leaves.
Proof.
  revert new_leaves. induction leaves as [|leaf leaves IH]; simpl; intros out H.
  - inversion H. reflexivity.
  - unfold index_last, leaf_rest in *.
    destruct (last_of leaf) as [lm|]; simpl in H; [|discriminate].
    destruct (drain (child (rest lm))) as [st|ms] eqn:Ed; simpl in H;
      [discriminate|].
    destruct (extend_leaves child leaves) as [st|more]; simpl in H;
      [discriminate|].
    inversion H; subst. apply drain_inr in Ed. destruct Ed as [-> _].
    rewrite (IH more eq_refl). reflexivity.
Qed.

Lemma extend_leaves_inl child leaves st :
  extend_leaves child leaves = inl st -> st <> Finished.
Proof.
  induction leaves as [|leaf leaves IH]; simpl; intros H; [discriminate|].
  unfold index_last in H.
  destruct (last_of leaf) as [lm|]; simpl in H;
    [|inversion H; discriminate].
  unfold drain in H at 1.
  destruct (snd (child (rest lm))) eqn:Es; simpl in H;
    try (inversion H; discriminate).
  destruct (extend_leaves child leaves) as [st'|more]; simpl in H;
    [|discriminate].
  inversion H; subst. apply IH. reflexivity.
Qed.

Lemma expand_inr children : forall leaves out,
  expand children leaves = inr out ->
  out = flat_map (fun leaf => map (app leaf)
                                  (nested_loops children (leaf_rest leaf)))
                 leaves.
Proof.
  induction children as [|child children IH]; intros leaves out H.
  - simpl in H. inversion H; subst. simpl.
    rewrite <- (map_id out) at 1. rewrite <- flat_map_singleton.
    apply flat_map_ext. intros leaf. rewrite app_nil_r. reflexivity.
  - destruct leaves as [|leaf0 leaves0]; [inversion H; reflexivity|].
    cbn [expand] in H.
    destruct (extend_leaves child (leaf0 :: leaves0)) as [st|new_leaves] eqn:Ee;
      simpl in H; [discriminate|].
    apply extend_leaves_inr in Ee. apply IH in H. subst out new_leaves.
    rewrite flat_map_flat_map. apply flat_map_ext. intros leaf.
    rewrite flat_map_map. cbn [nested_loops]. rewrite map_flat_map.
    apply flat_map_ext. intros m. rewrite leaf_rest_snoc, map_map.
    apply map_ext. intros p. rewrite <- app_assoc. reflexivity.
Qed.

Lemma expand_inl children : forall leaves st,
  expand children leaves = inl st -> st <> Finished.
Proof.
  induction children as [|child children IH]; intros leaves st H.
  - discriminate.
  - destruct leaves as [|leaf0 leaves0]; [discriminate|].
    cbn [expand] in H.
    destruct (extend_leaves child (leaf0 :: leaves0)) as [st'|new_leaves] eqn:Ee;
      simpl in H.
    + inversion H; subst. eapply extend_leaves_inl; eassumption.
    + eapply IH; eassumption.
Qed.

Lemma nested_loops_nonempty child children s path :
  In path (nested_loops (child :: children) s) -> last_of path <> None.
Proof.
  simpl. intros H. apply in_flat_map in H. destruct H as (m & _ & H).
  apply in_map_iff in H. destruct H as (p & <- & _).
  rewrite last_of_cons. destruct (last_of p); discriminate.
Qed.

Lemma gen_for_assemble s paths :
  (forall path, In path paths -> last_of path <> None) ->
  gen_for assemble paths = (map (result_of s) paths, Finished).
Proof.
  induction paths as [|path paths IH]; intros H; [reflexivity|].
  simpl. rewrite IH by (intros p Hp; apply H; right; exact Hp).
  unfold assemble, result_of. specialize (H path (or_introl eq_refl)).
  destruct (last_of path); [reflexivity|congruence].
Qed.

Lemma frontier_inr first children s out :
  frontier first children s = inr out ->
  out = nested_loops (first :: children) s.
Proof.
  unfold frontier. destruct (drain (first s)) as [st|ms] eqn:Ed; simpl;
    [discriminate|].
  intros H. apply expand_inr in H. apply drain_inr in Ed.
  destruct Ed as [-> _]. subst out. rewrite flat_map_map. reflexivity.
Qed.

Lemma frontier_inl first children s st :
  frontier first children s = inl st -> st <> Finished.
Proof.
  unfold frontier, drain.
  destruct (snd (first s)) eqn:Es; simpl;
    try (intros H; inversion H; discriminate).
  apply expand_inl.
Qed.

(** A non-empty sequence either stops before yielding anything, or yields
    the nested-loop enumeration and ends normally. *)
Lemma Sequence_match_cons first children s :
  Sequence_match (first :: children) s =
    match frontier first children s with
    | inr _ => (map (result_of s) (nested_loops (first :: children) s), Finished)
    | inl st => ([], st)
    end.
Proof.
  unfold Sequence_match. rewrite gen_then_finished by reflexivity.
  cbn [yielded fst gen_done stop snd app]. unfold breadth_first.
  fold (frontier first children s).
  destruct (frontier first children s) as [st|out] eqn:Ef; [reflexivity|].
  apply frontier_inr in Ef. subst out.
  rewrite (gen_for_assemble s)
    by (intros path; apply nested_loops_nonempty).
  reflexivity.
Qed.

Lemma nested_loops_admissible children : forall s path,
  In path (nested_loops children s) -> admissible children s path.
Proof.
  induction children as [|child children IH]; simpl; intros s path H.
  - destruct H as [<-|[]]. constructor.
  - apply in_flat_map in H. destruct H as (m & Hm & H).
    apply in_map_iff in H. destruct H as (p & <- & Hp).
    constructor; auto.
Qed.

Lemma admissible_nested_loops children s path :
  admissible children s path -> In path (nested_loops children s).
Proof.
  induction 1; simpl; [auto|].
  apply in_flat_map. exists m. split; [assumption|].
  apply in_map. assumption.
Qed.

Lemma Sequence_match_in first children s r :
  In r (yielded (Sequence_match (first :: children) s)) ->
  exists path,
    In path (nested_loops (first :: children) s) /\ r = result_of s path.
Proof.
  rewrite Sequence_match_cons.
  destruct (frontier first children s) as [st|out]; simpl; [intros []|].
  intros H. apply in_map_iff in H. destruct H as (path & <- & Hp). eauto.
Qed.

(** C6: every result of a non-empty sequence comes from one admissible
    match per child, each child matched against the rest of the previous
    one: its captured string is the concatenation of their captured
    strings, its converted value the list of their converted values
    without the non-capturing marker, and its rest the rest of the last
    child's match. *)
Theorem Sequence_results_admissible :
  forall fuel first children s r,
    In r (yielded (match_ fuel (Sequence (first :: children)) s)) ->
    exists path last_match,
      admissible (map (match_ fuel) (first :: children)) s path
      /\ last_of path = Some last_match
      /\ captured r = concat (map captured path)
      /\ converted r = VList (filter is_capturing (map converted path))
      /\ rest r = rest last_match.
Proof.
  intros fuel first children s r H. cbn [match_ map] in H.
  apply Sequence_match_in in H. destruct H as (path & Hp & ->).
  pose proof (nested_loops_nonempty _ _ _ _ Hp) as Hl.
  apply nested_loops_admissible in Hp.
  destruct (last_of path) as [lm|] eqn:El; [|congruence].
  exists path, lm. unfold result_of. rewrite El. auto.
Qed.

Lemma Sequence_results_admissible_witness :
  In (mkMatch (VList [VInt 42; VInt 15]) (lit "42 15") (lit " hello"))
     (yielded (match_ 0 (Sequence [Integer; Integer]) (lit "42 15 hello")))
  /\ exists path last_match,
       admissible (map (match_ 0) [Integer; Integer]) (lit "42 15 hello") path
       /\ last_of path = Some last_match
       /\ lit "42 15" = concat (map captured path)
       /\ VList [VInt 42; VInt 15] =
            VList (filter is_capturing (map converted path))
       /\ lit " hello" = rest last_match.
Proof.
  split; [left; reflexivity|].
  apply (Sequence_results_admissible 0 Integer [Integer] (lit "42 15 hello")
           (mkMatch (VList [VInt 42; VInt 15]) (lit "42 15") (lit " hello"))).
  left. reflexivity.
Defined.

(** ** Captured text and rest partition the input *)

Lemma admissible_partition children s path :
  admissible children s path ->
  Forall partitions children ->
  captured (result_of s path) ++ rest (result_of s path) = s.
Proof.
  unfold result_of. simpl.
  induction 1 as [s|child children s m ms Hm Hadm IH]; intros Hall.
  - reflexivity.
  - inversion Hall as [|? ? Hc Hcs]; subst.
    specialize (IH Hcs). rewrite last_of_cons.
    unfold join_captured in *. simpl. rewrite <- app_assoc.
    rewrite <- (Hc s m Hm). f_equal.
    destruct (last_of ms); exact IH.
Qed.

Lemma Sequence_match_partitions children :
  Forall partitions children -> partitions (Sequence_match children).
Proof.
  intros Hall s m H. destruct children as [|first children].
  - unfold Sequence_match in H. simpl in H. destruct H as [<-|[]]. reflexivity.
  - apply Sequence_match_in in H. destruct H as (path & Hp & ->).
    apply admissible_partition with (children := first :: children); auto.
    apply nested_loops_admissible. exact Hp.
Qed.

(** ** Repetition *)

Lemma of_history_result s history : of_history s history = result_of s history.
Proof.
  unfold of_history, result_of. destruct (last_of history); reflexivity.
Qed.

Lemma admissible_Forall (Q : Match -> Prop) children s path :
  admissible children s path ->
  Forall (fun child : Matcher =>
            forall s m, In m (yielded (child s)) -> Q m) children ->
  Forall Q path.
Proof.
  induction 1 as [s|child children s m ms Hm Hadm IH]; intros Hall.
  - constructor.
  - inversion Hall; subst. constructor; eauto.
Qed.

Lemma Forall_repeat {A} (Q : A -> Prop) x n : Q x -> Forall Q (repeat x n).
Proof.
  intros H. induction n; simpl; constructor; assumption.
Qed.

Section Traverse.
Variable subspec : Matcher.

(** [traverse] yields the history it was given first, and then only
    proper extensions of it by chains of matches of the subspec. *)
Lemma traverse_yields : forall fuel s history,
  exists longer,
    yielded (traverse subspec fuel s history) = history :: longer
    /\ forall h, In h longer ->
         exists m ext,
           h = history ++ m :: ext
           /\ admissible (repeat subspec (S (length ext))) s (m :: ext).
Proof.
  induction fuel as [|fuel IH]; intros s history; cbn [traverse].
  - eexists. split; [reflexivity|]. intros h H.
    apply in_gen_bind in H. destruct H as (m & _ & []).
  - eexists. split; [reflexivity|]. intros h H.
    apply in_gen_bind in H. destruct H as (m & Hm & H).
    destruct (IH (rest m) (history ++ [m])) as (longer & Hy & Hl).
    rewrite Hy in H. destruct H as [<-|H].
    + exists m, []. split; [reflexivity|].
      simpl. constructor; [assumption|constructor].
    + destruct (Hl h H) as (m' & ext & -> & Hadm).
      exists m, (m' :: ext). split.
      * rewrite <- app_assoc. reflexivity.
      * simpl. constructor; assumption.
Qed.

Lemma stop_gen_for {A B} (body : A -> Gen B) xs :
  stop (gen_for body xs) = Finished
  \/ exists x, In x xs /\ stop (gen_for body xs) = stop (body x).
Proof.
  induction xs as [|x xs IH]; simpl; [left; reflexivity|].
  unfold gen_then. destruct (snd (body x)) eqn:Es.
  - destruct IH as [IH|(y & Hy & IH)]; [left; exact IH|].
    right. exists y. split; [right; exact Hy|exact IH].
  - right. exists x. split; [left; reflexivity|]. unfold stop. auto.
  - right. exists x. split; [left; reflexivity|]. unfold stop. auto.
Qed.

Lemma gen_for_ext_in {A B} (f g : A -> Gen B) xs :
  (forall x, In x xs -> f x = g x) -> gen_for f xs = gen_for g xs.
Proof.
  induction xs as [|x xs IH]; intros H; [reflexivity|].
  simpl. rewrite (H x (or_introl eq_refl)), IH; [reflexivity|].
  intros y Hy. apply H. right. exact Hy.
Qed.

Hypothesis subspec_shrinks : shrinks subspec.

(** With a budget of at least the length of the input the recursion
    never runs out: it is at most that deep. *)
Lemma traverse_terminates : forall fuel s history,
  terminates subspec ->
  length s <= fuel ->
  stop (traverse subspec fuel s history) <> Unfinished.
Proof.
  induction fuel as [|fuel IH]; intros s history Hterm Hlen;
    cbn [traverse]; unfold gen_yield, gen_bind, stop; cbn [snd].
  - destruct (stop_gen_for
                (fun m : Match => ([], Unfinished) : Gen (list Match))
                (fst (subspec s))) as [Hf|(m & Hm & _)].
    + unfold stop in Hf. unfold gen_then. rewrite Hf. apply Hterm.
    + apply subspec_shrinks in Hm. lia.
  - match goal with
    | |- snd (gen_then (gen_for ?b ?l) _) <> _ =>
        destruct (stop_gen_for b l) as [Hf|(m & Hm & Hs)]
    end.
    + unfold stop in Hf. unfold gen_then. rewrite Hf. apply Hterm.
    + unfold gen_then. unfold stop in Hs at 1. rewrite Hs.
      assert (Hn : stop (traverse subspec fuel (rest m) (history ++ [m]))
                   <> Unfinished).
      { apply IH; [assumption|]. apply subspec_shrinks in Hm. lia. }
      destruct (stop (traverse subspec fuel (rest m) (history ++ [m]))) eqn:E;
        unfold stop in E; try rewrite E; simpl; try congruence.
      apply Hterm.
Qed.

(** The same when the subspec is only known to come to an end on the
    strings no longer than the input. *)
Lemma traverse_terminates_within : forall fuel s history,
  (forall s', length s' <= length s -> stop (subspec s') <> Unfinished) ->
  length s <= fuel ->
  stop (traverse subspec fuel s history) <> Unfinished.
Proof.
  induction fuel as [|fuel IH]; intros s history Hterm Hlen;
    cbn [traverse]; unfold gen_yield, gen_bind, stop; cbn [snd].
  - destruct (stop_gen_for
                (fun m : Match => ([], Unfinished) : Gen (list Match))
                (fst (subspec s))) as [Hf|(m & Hm & _)].
    + unfold stop in Hf. unfold gen_then. rewrite Hf.
      apply (Hterm s (le_n _)).
    + apply subspec_shrinks in Hm. lia.
  - match goal with
    | |- snd (gen_then (gen_for ?b ?l) _) <> _ =>
        destruct (stop_gen_for b l) as [Hf|(m & Hm & Hs)]
    end.
    + unfold stop in Hf. unfold gen_then. rewrite Hf.
      apply (Hterm s (le_n _)).
    + unfold gen_then. unfold stop in Hs at 1. rewrite Hs.
      pose proof (subspec_shrinks _ _ Hm) as Hlt.
      assert (Hn : stop (traverse subspec fuel (rest m) (history ++ [m]))
                   <> Unfinished).
      { apply IH; [|lia]. intros s' Hs'. apply Hterm. lia. }
      destruct (stop (traverse subspec fuel (rest m) (history ++ [m]))) eqn:E;
        unfold stop in E; try rewrite E; simpl; try congruence.
      apply (Hterm s (le_n _)).
Qed.

(** Any two sufficient budgets give the same enumeration. *)
Lemma traverse_budget : forall fuel fuel' s history,
  length s <= fuel -> length s <= fuel' ->
  traverse subspec fuel s history = traverse subspec fuel' s history.
Proof.
  induction fuel as [|fuel IH]; intros fuel' s history H H';
    destruct fuel' as [|fuel']; cbn [traverse]; f_equal;
    unfold gen_bind; f_equal; apply gen_for_ext_in; intros m Hm;
    apply subspec_shrinks in Hm; try lia.
  apply IH; lia.
Qed.
End Traverse.

(** ** Induction over spec trees *)

Section SpecInduction.
Variable P : Spec -> Prop.

Hypothesis P_End : P End.
Hypothesis P_Exact : forall exact, P (Exact exact).
Hypothesis P_Transform : forall spec f, P spec -> P (Transform spec f).
Hypothesis P_NonCapturing : forall subspec, P subspec -> P (NonCapturing subspec).
Hypothesis P_Integer : P Integer.
Hypothesis P_Word : P Word.
Hypothesis P_String : P String.
Hypothesis P_StringWithout : forall exclude, P (StringWithout exclude).
Hypothesis P_Either : forall options, Forall P options -> P (Either options).
Hypothesis P_Sequence : forall sequence, Forall P sequence -> P (Sequence sequence).
Hypothesis P_ZeroOrMore : forall subspec, P subspec -> P (ZeroOrMore subspec).
Hypothesis P_OneOrMore : forall subspec, P subspec -> P (OneOrMore subspec).
Hypothesis P_NamedOr :
  forall d, Forall (fun p => P (snd p)) d -> P (NamedOr d).
Hypothesis P_NamedAnd :
  forall d, Forall (fun p => P (snd p)) d -> P (NamedAnd d).
Hypothesis P_PyList : forall items, P (PyList items).
Hypothesis P_PyDict : forall items, P (PyDict items).
Hypothesis P_PyStr : forall s, P (PyStr s).
Hypothesis P_PyIntType : P PyIntType.
Hypothesis P_PyStrType : P PyStrType.
Hypothesis P_PyOther : P PyOther.

Lemma Spec_tree_ind : forall sp, P sp.
Proof.
  fix IH 1. intros sp. destruct sp.
  - apply P_End.
  - apply P_Exact.
  - apply P_Transform, IH.
  - apply P_NonCapturing, IH.
  - apply P_Integer.
  - apply P_Word.
  - apply P_String.
  - apply P_StringWithout.
  - apply P_Either. induction options; constructor; [apply IH|assumption].
  - apply P_Sequence. induction sequence; constructor; [apply IH|assumption].
  - apply P_ZeroOrMore, IH.
  - apply P_OneOrMore, IH.
  - apply P_NamedOr.
    induction options_dict as [|[name spec] d IHd]; constructor;
      [apply IH|assumption].
  - apply P_NamedAnd.
    induction sequence_dict as [|[name spec] d IHd]; constructor;
      [apply IH|assumption].
  - apply P_PyList.
  - apply P_PyDict.
  - apply P_PyStr.
  - apply P_PyIntType.
  - apply P_PyStrType.
  - apply P_PyOther.
Qed.
End SpecInduction.

(** ** The partition invariant, node by node *)

Lemma End_partitions : partitions End_match.
Proof.
  intros s m. unfold End_match. destruct (forallb is_space s); simpl.
  - intros [<-|[]]. simpl. apply app_nil_r.
  - intros [].
Qed.

Lemma Exact_partitions exact : partitions (Exact_match exact).
Proof.
  intros s m. unfold Exact_match.
  destruct (exact_end exact s (span is_space s)); simpl.
  - intros [<-|[]]. simpl. apply firstn_skipn.
  - intros [].
Qed.

Lemma Integer_partitions : partitions Integer_match.
Proof.
  intros s m. unfold Integer_match.
  destruct (integer_span s) as [[b e]|]; simpl; [|intros []].
  destruct (py_int (skipn b (firstn e s))) as [exn|n]; simpl; [intros []|].
  intros [<-|[]]. simpl. apply firstn_skipn.
Qed.

Lemma Word_partitions : partitions Word_match.
Proof.
  intros s m. unfold Word_match.
  destruct (word_span s) as [[b e]|]; simpl.
  - intros [<-|[]]. simpl. apply firstn_skipn.
  - intros [].
Qed.

Lemma String_partitions : partitions String_match.
Proof.
  intros s m. unfold String_match. simpl. intros H.
  apply in_map_iff in H. destruct H as (i & <- & _). apply firstn_skipn.
Qed.

Lemma StringWithout_partitions exclude : partitions (StringWithout_match exclude).
Proof.
  intros s m. unfold StringWithout_match. destruct s as [|c s]; simpl.
  - intros [].
  - intros H. apply in_map_iff in H. destruct H as (i & <- & _).
    apply (firstn_skipn i (c :: s)).
Qed.

Lemma replace_converted_partitions (f : Match -> Value) spec :
  partitions spec ->
  partitions (fun s => gen_map (fun m => replace_converted m (f m)) (spec s)).
Proof.
  intros Hp s m H. apply in_gen_map in H. destruct H as (m0 & Hm0 & ->).
  simpl. apply Hp. exact Hm0.
Qed.

Lemma ZeroOrMore_partitions subspec fuel :
  partitions subspec -> partitions (ZeroOrMore_match subspec fuel).
Proof.
  intros Hp s m H. unfold ZeroOrMore_match in H.
  apply in_gen_map in H. destruct H as (h & Hh & ->).
  rewrite of_history_result.
  destruct (traverse_yields subspec fuel s []) as (longer & Hy & Hl).
  rewrite Hy in Hh. destruct Hh as [<-|Hh]; [reflexivity|].
  destruct (Hl h Hh) as (m' & ext & -> & Hadm). simpl app.
  eapply admissible_partition; [exact Hadm|].
  apply Forall_repeat. exact Hp.
Qed.

Lemma OneOrMore_partitions subspec fuel :
  partitions subspec -> partitions (OneOrMore_match subspec fuel).
Proof.
  intros Hp s m H. unfold OneOrMore_match, gen_filter, yielded in H.
  simpl in H. apply filter_In in H. destruct H as [H _].
  pose proof (@ZeroOrMore_partitions subspec fuel Hp) as Hz.
  exact (Hz s m H).
Qed.

(** C7: for every spec and every input, each match yielded satisfies
    [captured + rest == input]. *)
Theorem captured_rest_partition :
  forall fuel sp s m,
    In m (yielded (match_ fuel sp s)) -> captured m ++ rest m = s.
Proof.
  intros fuel sp. change (partitions (match_ fuel sp)).
  induction sp using Spec_tree_ind; cbn [match_];
    try (intros ? ? Hm; simpl in Hm; contradiction).
  - apply End_partitions.
  - apply Exact_partitions.
  - apply (replace_converted_partitions (fun m => f (converted m))). exact IHsp.
  - apply (replace_converted_partitions (fun _ => NON_CAPTURING)). exact IHsp.
  - apply Integer_partitions.
  - apply Word_partitions.
  - apply String_partitions.
  - apply StringWithout_partitions.
  - intros s m Hm. apply in_gen_for in Hm. destruct Hm as (spec & Hs & Hm).
    apply in_map_iff in Hs. destruct Hs as (o & <- & Ho).
    rewrite Forall_forall in H. exact (H o Ho s m Hm).
  - apply Sequence_match_partitions. rewrite Forall_map. exact H.
  - apply ZeroOrMore_partitions. exact IHsp.
  - apply OneOrMore_partitions. exact IHsp.
  - intros s m Hm. unfold NamedOr_match in Hm.
    apply in_gen_for in Hm. destruct Hm as ([name spec] & Hs & Hm).
    apply in_map_iff in Hs. destruct Hs as ([name' o] & Heq & Ho).
    simpl in Heq. inversion Heq; subst.
    apply in_gen_map in Hm. destruct Hm as (m0 & Hm0 & ->). simpl.
    rewrite Forall_forall in H. exact (H _ Ho s m0 Hm0).
  - intros s m Hm. unfold NamedAnd_match in Hm.
    apply in_gen_map in Hm. destruct Hm as (m0 & Hm0 & ->). simpl.
    revert s m0 Hm0. apply Sequence_match_partitions.
    rewrite !Forall_map. simpl. exact H.
Qed.

Lemma captured_rest_partition_witness :
  In (mkMatch (VStr (lit "ban")) (lit "   ban") (lit "!!"))
     (yielded (match_ 0 (Exact (lit "ban")) (lit "   ban!!")))
  /\ lit "   ban" ++ lit "!!" = lit "   ban!!".
Proof.
  split; [left; reflexivity|].
  apply (captured_rest_partition 0 (Exact (lit "ban")) (lit "   ban!!")
           (mkMatch (VStr (lit "ban")) (lit "   ban") (lit "!!"))).
  left. reflexivity.
Defined.

(** ** OneOrMore against ZeroOrMore *)

Lemma filter_all {A} (p : A -> bool) l :
  (forall x, In x l -> p x = true) -> filter p l = l.
Proof.
  induction l as [|x l IH]; intros H; [reflexivity|].
  simpl. rewrite (H x (or_introl eq_refl)), IH; [reflexivity|].
  intros y Hy. apply H. right. exact Hy.
Qed.

Lemma OneOrMore_never_empty subspec fuel s m :
  In m (yielded (OneOrMore_match subspec fuel s)) -> converted m <> VList [].
Proof.
  unfold OneOrMore_match, gen_filter, yielded. simpl. intros H.
  apply filter_In in H. destruct H as [_ H]. intros E. rewrite E in H.
  discriminate.
Qed.

Lemma ZeroOrMore_head_tail subspec fuel s :
  always_capturing subspec ->
  yielded (ZeroOrMore_match subspec fuel s) =
    mkMatch (VList []) [] s :: yielded (OneOrMore_match subspec fuel s).
Proof.
  intros Hc. unfold OneOrMore_match, ZeroOrMore_match, gen_filter, gen_map,
    yielded. simpl.
  destruct (traverse_yields subspec fuel s []) as (longer & Hy & Hl).
  unfold yielded in Hy. rewrite Hy. simpl. f_equal. symmetry.
  apply filter_all. intros m Hm. apply in_map_iff in Hm.
  destruct Hm as (h & <- & Hh). destruct (Hl h Hh) as (m' & ext & -> & Hadm).
  simpl app.
  assert (Hall : Forall (fun m => is_capturing (converted m) = true) (m' :: ext)).
  { eapply admissible_Forall; [exact Hadm|]. apply Forall_repeat. exact Hc. }
  inversion Hall as [|? ? Hm' _]; subst.
  unfold of_history, capturing_values. simpl. rewrite Hm'. reflexivity.
Qed.

(** C5 (as amended): [OneOrMore(X)] yields the results of [ZeroOrMore(X)]
    whose converted value is not the empty list, in the same order, and
    stops the same way, so it never yields an empty-list converted value;
    when no match of [X] converts to the non-capturing marker, the results
    of [ZeroOrMore(X)] are the zero-repetition result followed by exactly
    the results of [OneOrMore(X)]. *)
Theorem OneOrMore_filters_ZeroOrMore :
  forall fuel X s,
    match_ fuel (OneOrMore X) s =
      gen_filter (fun m => not_empty_list (converted m))
                 (match_ fuel (ZeroOrMore X) s)
    /\ (forall m, In m (yielded (match_ fuel (OneOrMore X) s)) ->
                  converted m <> VList [])
    /\ (always_capturing (match_ fuel X) ->
        yielded (match_ fuel (ZeroOrMore X) s) =
          mkMatch (VList []) [] s :: yielded (match_ fuel (OneOrMore X) s)).
Proof.
  intros fuel X s. split; [reflexivity|split].
  - intros m. cbn [match_]. apply OneOrMore_never_empty.
  - cbn [match_]. apply ZeroOrMore_head_tail.
Qed.

Lemma Integer_always_capturing fuel : always_capturing (match_ fuel Integer).
Proof.
  intros s m. cbn [match_]. unfold Integer_match.
  destruct (integer_span s) as [[b e]|]; simpl; [|intros []].
  destruct (py_int (skipn b (firstn e s))) as [exn|n]; simpl; [intros []|].
  intros [<-|[]]. reflexivity.
Qed.

Lemma OneOrMore_filters_ZeroOrMore_witness :
  always_capturing (match_ 2 Integer)
  /\ yielded (match_ 2 (ZeroOrMore Integer) (lit "4 2")) =
       mkMatch (VList []) [] (lit "4 2")
       :: yielded (match_ 2 (OneOrMore Integer) (lit "4 2")).
Proof.
  split; [apply Integer_always_capturing|].
  apply (proj2 (proj2 (OneOrMore_filters_ZeroOrMore 2 Integer (lit "4 2")))).
  apply Integer_always_capturing.
Defined.

(** C5 as stated fails for a non-capturing subspec: the result of one
    repetition is dropped together with the zero-repetition result. *)
Lemma OneOrMore_drops_noncapturing_repetitions :
  yielded (match_ 1 (OneOrMore (NonCapturing (Exact (lit "a")))) (lit "a")) <>
    tl (yielded (match_ 1 (ZeroOrMore (NonCapturing (Exact (lit "a")))) (lit "a"))).
Proof.
  vm_compute. discriminate.
Qed.

(** ** Termination of the repetition *)

Lemma String_shrinks fuel : shrinks (match_ fuel String).
Proof.
  intros s m. cbn [match_]. unfold String_match, range_down. simpl.
  intros H. apply in_map_iff in H. destruct H as (i & <- & Hi).
  apply in_rev, in_seq in Hi. simpl. rewrite length_skipn. lia.
Qed.

Lemma String_terminates fuel : terminates (match_ fuel String).
Proof.
  intros s. cbn [match_]. unfold String_match, stop. simpl. discriminate.
Qed.

(** Without strict shrinking the unrolling need not end: [End] matches
    the empty string and leaves it as it is. *)
Lemma traverse_End_unfinished : forall fuel history,
  stop (traverse End_match fuel [] history) = Unfinished.
Proof.
  induction fuel as [|fuel IH]; intros history; [reflexivity|].
  cbn [traverse]. specialize (IH (history ++ [mkMatch NON_CAPTURING [] []])).
  assert (Hn : stop (traverse End_match fuel []
                       (history ++ [mkMatch NON_CAPTURING [] []])) <> Finished)
    by (rewrite IH; discriminate).
  unfold gen_bind. change (fst (End_match [])) with [mkMatch NON_CAPTURING [] []].
  cbn [gen_for rest]. rewrite !(gen_then_stopped _ _ Hn). exact IH.
Qed.

Lemma ZeroOrMore_End_unfinished fuel :
  stop (match_ fuel (ZeroOrMore End) []) = Unfinished.
Proof.
  cbn [match_]. unfold ZeroOrMore_match, gen_map, stop. simpl.
  apply traverse_End_unfinished.
Qed.

(** ** The helper [zero_or_more] *)

(** C10: [zero_or_more(X)] builds a [OneOrMore] node, the node
    [one_or_more(X)] builds, so both yield the same matches, none of them
    with an empty-list converted value; in particular the zero-repetition
    result ([converted == []], [rest == s]) is never yielded. *)
Theorem zero_or_more_is_one_or_more :
  forall fuel X s,
    arg_parse.zero_or_more X = OneOrMore X
    /\ match_ fuel (arg_parse.zero_or_more X) s =
         match_ fuel (arg_parse.one_or_more X) s
    /\ forall m,
         In m (yielded (match_ fuel (arg_parse.zero_or_more X) s)) ->
         converted m <> VList []
         /\ ~ (converted m = VList [] /\ rest m = s).
Proof.
  intros fuel X s. split; [reflexivity|split; [reflexivity|]].
  intros m H. unfold arg_parse.zero_or_more in H. cbn [match_] in H.
  apply OneOrMore_never_empty in H. split; [exact H|].
  intros [E _]. contradiction.
Qed.

Lemma zero_or_more_is_one_or_more_witness :
  In (mkMatch (VList [VInt 4]) (lit "4") (lit " 2"))
     (yielded (match_ 2 (arg_parse.zero_or_more Integer) (lit "4 2")))
  /\ VList [VInt 4] <> VList [].
Proof.
  split; [left; reflexivity|].
  apply (proj2 (proj2 (zero_or_more_is_one_or_more 2 Integer (lit "4 2")))
           (mkMatch (VList [VInt 4]) (lit "4") (lit " 2"))).
  left. reflexivity.
Defined.


(** * Further properties of the matching engine *)

(** ** Loops that end normally *)

Lemma gen_then_finished_inv {A} (g k : Gen A) :
  stop (gen_then g k) = Finished -> stop g = Finished /\ stop k = Finished.
Proof.
  unfold gen_then, stop. destruct (snd g) eqn:E; simpl; intros H;
    try (rewrite E in H; discriminate). auto.
Qed.

Lemma gen_for_all_finished {A B} (body : A -> Gen B) xs :
  (forall x, In x xs -> stop (body x) = Finished) ->
  gen_for body xs = (flat_map (fun x => yielded (body x)) xs, Finished).
Proof.
  induction xs as [|x xs IH]; intros H; [reflexivity|].
  simpl. rewrite IH by (intros y Hy; apply H; right; exact Hy).
  rewrite gen_then_finished by (apply H; left; reflexivity). reflexivity.
Qed.

Lemma gen_for_finished_inv {A B} (body : A -> Gen B) xs :
  stop (gen_for body xs) = Finished ->
  forall x, In x xs -> stop (body x) = Finished.
Proof.
  induction xs as [|x xs IH]; simpl; intros H y Hy; [destruct Hy|].
  apply gen_then_finished_inv in H. destruct H as [Hx Hxs].
  destruct Hy as [<-|Hy]; auto.
Qed.

Lemma gen_for_stops_at {A B} (body : A -> Gen B) pre x post :
  (forall y, In y pre -> stop (body y) = Finished) ->
  stop (body x) <> Finished ->
  gen_for body (pre ++ x :: post) =
    (flat_map (fun y => yielded (body y)) pre ++ yielded (body x),
     stop (body x)).
Proof.
  intros Hpre Hx. induction pre as [|y pre IH]; simpl.
  - rewrite gen_then_stopped by assumption. destruct (body x); reflexivity.
  - rewrite IH by (intros z Hz; apply Hpre; right; exact Hz).
    rewrite gen_then_finished by (apply Hpre; left; reflexivity).
    simpl. rewrite app_assoc. reflexivity.
Qed.

(** ** Either *)

(** X1: when every option ends normally, [Either] yields the matches of
    its options one option after the other, in the order the options are
    listed, without removing duplicates, and ends normally. *)
Theorem Either_concatenates :
  forall fuel options s,
    (forall o, In o options -> stop (match_ fuel o s) = Finished) ->
    match_ fuel (Either options) s =
      (flat_map (fun o => yielded (match_ fuel o s)) options, Finished).
Proof.
  intros fuel options s H. cbn [match_].
  rewrite gen_for_all_finished.
  - rewrite flat_map_map. reflexivity.
  - intros spec Hs. apply in_map_iff in Hs. destruct Hs as (o & <- & Ho).
    apply H. exact Ho.
Qed.

Lemma Either_concatenates_witness :
  (forall o, In o [String; Integer] ->
             stop (match_ 0 o (lit "25")) = Finished)
  /\ match_ 0 (Either [String; Integer]) (lit "25") =
       (flat_map (fun o => yielded (match_ 0 o (lit "25"))) [String; Integer],
        Finished).
Proof.
  assert (H : forall o, In o [String; Integer] ->
                        stop (match_ 0 o (lit "25")) = Finished).
  { intros o [<-|[<-|[]]]; reflexivity. }
  split; [exact H|].
  apply (Either_concatenates 0 [String; Integer] (lit "25") H).
Defined.

(** X2: [Either] stops at the first option that does not end normally:
    the matches of the options before it and its own are yielded, the
    options after it are never tried. *)
Theorem Either_stops_at_first_failure :
  forall fuel before o after s,
    (forall o', In o' before -> stop (match_ fuel o' s) = Finished) ->
    stop (match_ fuel o s) <> Finished ->
    match_ fuel (Either (before ++ o :: after)) s =
      (flat_map (fun o' => yielded (match_ fuel o' s)) before
         ++ yielded (match_ fuel o s),
       stop (match_ fuel o s)).
Proof.
  intros fuel before o after s Hb Ho. cbn [match_].
  rewrite map_app. cbn [map].
  rewrite (gen_for_stops_at (fun spec : Matcher => spec s)).
  - rewrite flat_map_map. reflexivity.
  - intros spec Hs. apply in_map_iff in Hs. destruct Hs as (o' & <- & Ho').
    apply Hb. exact Ho'.
  - exact Ho.
Qed.

Lemma Either_stops_at_first_failure_witness :
  match_ 0 (Either ([Integer] ++ Sequence [] :: [Word])) (lit "7") =
    (flat_map (fun o' => yielded (match_ 0 o' (lit "7"))) [Integer]
       ++ yielded (match_ 0 (Sequence []) (lit "7")),
     stop (match_ 0 (Sequence []) (lit "7"))).
Proof.
  apply (Either_stops_at_first_failure 0 [Integer] (Sequence []) [Word] (lit "7")).
  - intros o' [<-|[]]. reflexivity.
  - discriminate.
Defined.

(** ** Decorators *)

(** X3: decorators compose: transforming twice is transforming with the
    composed function, and [NonCapturing] discards whatever a [Transform]
    below it computed. *)
Theorem Transform_composes :
  forall fuel sp f g s,
    match_ fuel (Transform (Transform sp f) g) s =
      match_ fuel (Transform sp (fun v => g (f v))) s
    /\ match_ fuel (NonCapturing (Transform sp f)) s =
         match_ fuel (NonCapturing sp) s
    /\ match_ fuel (NonCapturing (NonCapturing sp)) s =
         match_ fuel (NonCapturing sp) s.
Proof.
  intros fuel sp f g s. cbn [match_]. unfold gen_map. simpl.
  rewrite !map_map. repeat split.
Qed.

(** ** Repetition: what is enumerated *)

Lemma in_gen_for_intro {A B} (body : A -> Gen B) xs x y :
  stop (gen_for body xs) = Finished ->
  In x xs -> In y (yielded (body x)) -> In y (yielded (gen_for body xs)).
Proof.
  intros Hf Hx Hy.
  rewrite gen_for_all_finished by (apply gen_for_finished_inv; exact Hf).
  simpl. apply in_flat_map. exists x. auto.
Qed.

Lemma traverse_finished_inv subspec fuel s history :
  stop (traverse subspec fuel s history) = Finished ->
  stop (gen_for
          (fun m => match fuel with
                    | 0 => ([], Unfinished)
                    | S fuel' =>
                        traverse subspec fuel' (rest m) (history ++ [m])
                    end)
          (yielded (subspec s))) = Finished.
Proof.
  destruct fuel; cbn [traverse]; unfold gen_yield, gen_bind;
    intros H; apply (gen_then_finished_inv _ _ H).
Qed.

(** A repetition that ends normally has yielded every chain of matches
    of the subspec. *)
Lemma traverse_complete subspec : forall fuel s history path,
  stop (traverse subspec fuel s history) = Finished ->
  admissible (repeat subspec (length path)) s path ->
  In (history ++ path) (yielded (traverse subspec fuel s history)).
Proof.
  induction fuel as [|fuel IH]; intros s history path Hf Hadm.
  - destruct path as [|m ms].
    + rewrite app_nil_r. cbn [traverse]. left. reflexivity.
    + exfalso. inversion Hadm; subst.
      apply traverse_finished_inv in Hf.
      pose proof (gen_for_finished_inv _ _ Hf m H3) as Hm. discriminate.
  - destruct path as [|m ms].
    + rewrite app_nil_r. cbn [traverse]. left. reflexivity.
    + inversion Hadm; subst.
      pose proof (traverse_finished_inv _ _ _ _ Hf) as Hg.
      pose proof (gen_for_finished_inv _ _ Hg m H3) as Hm.
      cbn [traverse]. right. unfold gen_bind.
      rewrite gen_then_finished by exact Hg. simpl. rewrite app_nil_r.
      eapply in_gen_for_intro; [exact Hg|exact H3|].
      change (history ++ m :: ms) with (history ++ [m] ++ ms).
      rewrite app_assoc. apply IH; assumption.
Qed.

(** A match of the subspec that consumes nothing keeps the repetition
    from ever ending normally. *)
Lemma traverse_stuck subspec s m :
  In m (yielded (subspec s)) -> rest m = s ->
  forall fuel history, stop (traverse subspec fuel s history) <> Finished.
Proof.
  intros Hm Hr. induction fuel as [|fuel IH]; intros history Hf;
    apply traverse_finished_inv in Hf;
    pose proof (gen_for_finished_inv _ _ Hf m Hm) as Hb.
  - discriminate.
  - simpl in Hb. rewrite Hr in Hb. exact (IH _ Hb).
Qed.

(** X4: whatever the subspec does, the first result of [ZeroOrMore] is
    the zero-repetition match [Match([], "", s)], so [first_match] on a
    [ZeroOrMore] never fails and never consumes anything. *)
Theorem ZeroOrMore_first_match_is_empty :
  forall fuel X s,
    first_match fuel (ZeroOrMore X) s = inr (Some (mkMatch (VList []) [] s)).
Proof.
  intros fuel X s. unfold first_match. cbn [match_].
  unfold ZeroOrMore_match, gen_map.
  destruct (traverse_yields (match_ fuel X) fuel s []) as (longer & Hy & _).
  unfold yielded in Hy. rewrite Hy. reflexivity.
Qed.

(** X5: every result of [ZeroOrMore(X)] comes from a chain of matches of
    [X], each on the rest of the one before: captured is the
    concatenation of their captured strings, converted the list of their
    converted values without the marker, rest the rest of the last one
    (the input itself for the empty chain). *)
Theorem ZeroOrMore_results_are_chains :
  forall fuel X s r,
    In r (yielded (match_ fuel (ZeroOrMore X) s)) ->
    exists path,
      admissible (repeat (match_ fuel X) (length path)) s path
      /\ r = result_of s path.
Proof.
  intros fuel X s r H. cbn [match_] in H. unfold ZeroOrMore_match in H.
  apply in_gen_map in H. destruct H as (h & Hh & ->).
  destruct (traverse_yields (match_ fuel X) fuel s []) as (longer & Hy & Hl).
  rewrite Hy in Hh. destruct Hh as [<-|Hh].
  - exists []. split; [constructor|apply of_history_result].
  - destruct (Hl h Hh) as (m & ext & -> & Hadm).
    exists (m :: ext). split; [exact Hadm|apply of_history_result].
Qed.

Lemma ZeroOrMore_results_are_chains_witness :
  In (mkMatch (VList [VInt 4; VInt 2]) (lit "4 2") [])
     (yielded (match_ 2 (ZeroOrMore Integer) (lit "4 2")))
  /\ exists path,
       admissible (repeat (match_ 2 Integer) (length path)) (lit "4 2") path
       /\ mkMatch (VList [VInt 4; VInt 2]) (lit "4 2") [] =
            result_of (lit "4 2") path.
Proof.
  split; [right; right; left; reflexivity|].
  apply (@ZeroOrMore_results_are_chains 2 Integer (lit "4 2")).
  right. right. left. reflexivity.
Defined.

(** X6: a [ZeroOrMore(X)] that ends normally has yielded the result of
    every chain of matches of [X], of any length. *)
Theorem ZeroOrMore_yields_every_chain :
  forall fuel X s path,
    stop (match_ fuel (ZeroOrMore X) s) = Finished ->
    admissible (repeat (match_ fuel X) (length path)) s path ->
    In (result_of s path) (yielded (match_ fuel (ZeroOrMore X) s)).
Proof.
  intros fuel X s path Hf Hadm. cbn [match_] in *.
  unfold ZeroOrMore_match, gen_map, yielded in *. simpl in *.
  rewrite <- of_history_result. apply in_map.
  apply (@traverse_complete (match_ fuel X) fuel s [] path Hf Hadm).
Qed.

Lemma ZeroOrMore_yields_every_chain_witness :
  stop (match_ 2 (ZeroOrMore Integer) (lit "4 2")) = Finished
  /\ In (result_of (lit "4 2") [mkMatch (VInt 4) (lit "4") (lit " 2")])
        (yielded (match_ 2 (ZeroOrMore Integer) (lit "4 2"))).
Proof.
  split; [reflexivity|].
  apply (@ZeroOrMore_yields_every_chain 2 Integer (lit "4 2")
           [mkMatch (VInt 4) (lit "4") (lit " 2")]).
  - reflexivity.
  - simpl. constructor; [left; reflexivity|constructor].
Defined.

(** X7: if [X] has, on the input [s], a match that consumes nothing
    ([rest == s]), then neither [ZeroOrMore(X)] nor [OneOrMore(X)] ever
    comes to a normal end on [s], whatever the recursion budget. *)
Theorem repetition_of_non_advancing_match_never_ends :
  forall fuel X s m,
    In m (yielded (match_ fuel X s)) ->
    rest m = s ->
    stop (match_ fuel (ZeroOrMore X) s) <> Finished
    /\ stop (match_ fuel (OneOrMore X) s) <> Finished.
Proof.
  intros fuel X s m Hm Hr.
  assert (H : stop (match_ fuel (ZeroOrMore X) s) <> Finished).
  { cbn [match_]. unfold ZeroOrMore_match, gen_map, stop. simpl.
    apply (@traverse_stuck (match_ fuel X) s m Hm Hr). }
  split; [exact H|exact H].
Qed.

Lemma repetition_of_non_advancing_match_never_ends_witness :
  In (mkMatch NON_CAPTURING [] []) (yielded (match_ 5 End []))
  /\ stop (match_ 5 (ZeroOrMore End) []) <> Finished.
Proof.
  split; [left; reflexivity|].
  apply (proj1 (@repetition_of_non_advancing_match_never_ends 5 End []
                  (mkMatch NON_CAPTURING [] []) (or_introl eq_refl) eq_refl)).
Defined.

(** ** Leaf specs against their regular expressions *)

Lemma span_all p s : forallb p (firstn (span p s) s) = true.
Proof.
  induction s as [|c s IH]; simpl; [reflexivity|].
  destruct (p c) eqn:E; simpl; [rewrite E; exact IH|reflexivity].
Qed.

Lemma span_stops p s :
  match skipn (span p s) s with
  | c :: _ => p c = false
  | [] => True
  end.
Proof.
  induction s as [|c s IH]; simpl; [exact I|].
  destruct (p c) eqn:E; simpl; [exact IH|exact E].
Qed.

Lemma span_app p a b :
  forallb p a = true ->
  match b with c :: _ => p c = false | [] => True end ->
  span p (a ++ b) = length a.
Proof.
  intros Ha Hb. induction a as [|c a IH]; simpl in *.
  - destruct b as [|c b]; simpl; [reflexivity|]. rewrite Hb. reflexivity.
  - apply andb_true_iff in Ha. destruct Ha as [Hc Ha]. rewrite Hc.
    rewrite IH by assumption. reflexivity.
Qed.

Lemma forallb_firstn_le p n s :
  n <= span p s -> forallb p (firstn n s) = true.
Proof.
  revert n. induction s as [|c s IH]; intros n H; simpl in *.
  - destruct n; reflexivity.
  - destruct n as [|n]; [reflexivity|]. simpl.
    destruct (p c); simpl in *; [apply IH; lia|lia].
Qed.

Lemma firstn_add {A} k n (s : list A) :
  firstn (k + n) s = firstn k s ++ firstn n (skipn k s).
Proof.
  revert s. induction k as [|k IH]; intros s; [reflexivity|].
  destruct s as [|c s]; simpl.
  - destruct n; reflexivity.
  - rewrite IH. reflexivity.
Qed.

Lemma skipn_length_app {A} (a b : list A) : skipn (length a) (a ++ b) = b.
Proof. induction a; simpl; auto. Qed.

Lemma firstn_length_app {A} (a b : list A) : firstn (length a) (a ++ b) = a.
Proof. induction a; simpl; [reflexivity|]. f_equal. assumption. Qed.

Lemma startswith_app e r : startswith e (e ++ r) = true.
Proof.
  induction e as [|c e IH]; simpl; [reflexivity|].
  rewrite Ascii.eqb_refl. exact IH.
Qed.

Lemma startswith_inv e : forall t,
  startswith e t = true -> t = e ++ skipn (length e) t.
Proof.
  induction e as [|c e IH]; intros t H; [reflexivity|].
  destruct t as [|d t]; simpl in H; [discriminate|].
  apply andb_true_iff in H. destruct H as [Hc He].
  apply Ascii.eqb_eq in Hc. subst d. simpl. f_equal. apply IH. exact He.
Qed.

Lemma exact_end_inv exact s : forall n e,
  exact_end exact s n = Some e ->
  exists k, k <= n /\ startswith exact (skipn k s) = true
            /\ e = k + length exact.
Proof.
  induction n as [|n IH]; intros e H; cbn [exact_end] in H.
  - destruct (startswith exact (skipn 0 s)) eqn:E; [|discriminate].
    inversion H. exists 0. auto.
  - destruct (startswith exact (skipn (S n) s)) eqn:E.
    + inversion H. exists (S n). auto.
    + destruct (IH e H) as (k & Hk & Hs & He). exists k. auto.
Qed.

Lemma exact_end_here exact s n :
  startswith exact (skipn n s) = true ->
  exact_end exact s n = Some (n + length exact).
Proof.
  intros H. destruct n; cbn [exact_end]; rewrite H; reflexivity.
Qed.

(** X8: a match of [Exact(e)] consumes whitespace followed by the
    literal and nothing else, and converts to the literal. *)
Theorem Exact_match_sound :
  forall fuel exact s m,
    In m (yielded (match_ fuel (Exact exact) s)) ->
    exists ws,
      forallb is_space ws = true
      /\ s = ws ++ exact ++ rest m
      /\ captured m = ws ++ exact
      /\ converted m = VStr exact.
Proof.
  intros fuel exact s m H. cbn [match_] in H. unfold Exact_match in H.
  destruct (exact_end exact s (span is_space s)) as [e|] eqn:E;
    simpl in H; [|destruct H].
  destruct H as [<-|[]]. simpl.
  apply exact_end_inv in E. destruct E as (k & Hk & Hs & ->).
  apply startswith_inv in Hs.
  exists (firstn k s). split; [apply forallb_firstn_le; exact Hk|].
  assert (Hf : firstn (k + length exact) s = firstn k s ++ exact).
  { rewrite firstn_add. f_equal. rewrite Hs at 1. apply firstn_length_app. }
  split; [|split; [exact Hf|reflexivity]].
  rewrite app_assoc, <- Hf. symmetry. apply firstn_skipn.
Qed.

Lemma Exact_match_sound_witness :
  In (mkMatch (VStr (lit "ban")) (lit "   ban") (lit "!!"))
     (yielded (match_ 0 (Exact (lit "ban")) (lit "   ban!!")))
  /\ exists ws,
       forallb is_space ws = true
       /\ lit "   ban!!" = ws ++ lit "ban" ++ lit "!!"
       /\ lit "   ban" = ws ++ lit "ban"
       /\ VStr (lit "ban") = VStr (lit "ban").
Proof.
  split; [left; reflexivity|].
  apply (@Exact_match_sound 0 (lit "ban") (lit "   ban!!")
           (mkMatch (VStr (lit "ban")) (lit "   ban") (lit "!!"))).
  left. reflexivity.
Defined.

(** X9: on whitespace followed by a literal that does not itself begin
    with whitespace, [Exact] yields exactly one match: it consumes the
    whitespace and the literal and leaves everything after it. *)
Theorem Exact_reads_literal :
  forall fuel exact ws r,
    forallb is_space ws = true ->
    at_word_end exact = false ->
    match_ fuel (Exact exact) (ws ++ exact ++ r) =
      ([mkMatch (VStr exact) (ws ++ exact) r], Finished).
Proof.
  intros fuel exact ws r Hws He. cbn [match_]. unfold Exact_match.
  assert (Hspan : span is_space (ws ++ exact ++ r) = length ws).
  { apply span_app; [exact Hws|].
    destruct exact as [|c exact]; [discriminate|]. exact He. }
  rewrite Hspan, exact_end_here
    by (rewrite skipn_length_app; apply startswith_app).
  unfold gen_yield, gen_done. simpl. repeat f_equal.
  - rewrite firstn_add, firstn_length_app, skipn_length_app.
    rewrite firstn_length_app. reflexivity.
  - rewrite <- (length_app ws exact), app_assoc. apply skipn_length_app.
Qed.

Lemma Exact_reads_literal_witness :
  forallb is_space (lit "  ") = true
  /\ at_word_end (lit "ban") = false
  /\ match_ 0 (Exact (lit "ban")) (lit "  " ++ lit "ban" ++ lit "!!") =
       ([mkMatch (VStr (lit "ban")) (lit "  " ++ lit "ban") (lit "!!")],
        Finished).
Proof.
  split; [reflexivity|]. split; [reflexivity|].
  apply (@Exact_reads_literal 0 (lit "ban") (lit "  ") (lit "!!"));
    reflexivity.
Defined.

Ltac char_class :=
  unfold is_digit, is_space, is_sign;
  match goal with
  | |- context [nat_of_ascii ?c] => generalize (nat_of_ascii c)
  end; intros n;
  repeat match goal with
         | |- context [?a <=? ?b] => destruct (Nat.leb_spec a b)
         | |- context [?a =? ?b] => destruct (Nat.eqb_spec a b)
         end;
  simpl; intros; try reflexivity; try discriminate; try lia.

Lemma digit_not_space c : is_digit c = true -> is_space c = false.
Proof. char_class. Qed.

Lemma digit_not_sign c : is_digit c = true -> is_sign c = false.
Proof. char_class. Qed.

Lemma sign_not_space c : is_sign c = true -> is_space c = false.
Proof. char_class. Qed.

Lemma sign_not_digit c : is_sign c = true -> is_digit c = false.
Proof. char_class. Qed.

Lemma no_leading_digit_spec r :
  no_leading_digit r = true ->
  match r with c :: _ => is_digit c = false | [] => True end.
Proof.
  destruct r as [|c r]; simpl; [auto|]. intros H.
  apply negb_true_iff in H. exact H.
Qed.

Lemma minus_code c : Ascii.eqb "-" c = (nat_of_ascii c =? 45).
Proof.
  destruct (Ascii.eqb_spec "-"%char c) as [<-|Hc]; [reflexivity|].
  symmetry. apply Nat.eqb_neq. intros E. apply Hc.
  rewrite <- (ascii_nat_embedding c), E. reflexivity.
Qed.

Lemma integer_span_token ws sign ds r :
  forallb is_space ws = true ->
  sign = [] \/ (exists c, sign = [c] /\ is_sign c = true) ->
  ds <> [] ->
  forallb is_digit ds = true ->
  no_leading_digit r = true ->
  integer_span (ws ++ sign ++ ds ++ r) =
    Some (length ws, length ws + length sign + length ds).
Proof.
  intros Hws Hsign Hne Hds Hr. unfold integer_span.
  destruct ds as [|d ds]; [congruence|]. clear Hne.
  assert (Hd : is_digit d = true)
    by (simpl in Hds; apply andb_true_iff in Hds; tauto).
  assert (Hspan : span is_space (ws ++ sign ++ (d :: ds) ++ r) = length ws).
  { apply span_app; [exact Hws|].
    destruct Hsign as [->|(c & -> & Hc)]; simpl.
    - apply digit_not_space. exact Hd.
    - apply sign_not_space. exact Hc. }
  rewrite Hspan, skipn_length_app.
  assert (Hsg : match sign ++ (d :: ds) ++ r with
                | c :: _ => if is_sign c then 1 else 0
                | [] => 0
                end = length sign).
  { destruct Hsign as [->|(c & -> & Hc)]; simpl.
    - rewrite (digit_not_sign _ Hd). reflexivity.
    - rewrite Hc. reflexivity. }
  rewrite Hsg.
  assert (Hskip : skipn (length ws + length sign)
                        (ws ++ sign ++ (d :: ds) ++ r) = (d :: ds) ++ r).
  { rewrite <- (length_app ws sign), !app_assoc, <- (app_assoc (ws ++ sign)).
    apply skipn_length_app. }
  rewrite Hskip, span_app by (try assumption; apply no_leading_digit_spec; assumption).
  reflexivity.
Qed.

Lemma token_digits sign ds :
  sign = [] \/ (exists c, sign = [c] /\ is_sign c = true) ->
  forallb is_digit ds = true ->
  filter is_digit (sign ++ ds) = ds.
Proof.
  intros Hsign Hds.
  assert (Hf : filter is_digit ds = ds).
  { apply filter_all. apply forallb_forall. exact Hds. }
  destruct Hsign as [->|(c & -> & Hc)]; cbn [app filter].
  - exact Hf.
  - rewrite (sign_not_digit _ Hc). exact Hf.
Qed.

(** X10: on whitespace, an optional sign, a non-empty run of digits and
    a remainder that does not begin with a digit, [Integer] consumes up to
    the last digit: with at most [int_max_str_digits] digits it yields
    exactly one match, converting the signed token to its integer value;
    with more digits it yields nothing and raises [ValueError]. *)
Theorem Integer_reads_token :
  forall fuel ws sign ds r,
    forallb is_space ws = true ->
    sign = [] \/ (exists c, sign = [c] /\ is_sign c = true) ->
    ds <> [] ->
    forallb is_digit ds = true ->
    no_leading_digit r = true ->
    match_ fuel Integer (ws ++ sign ++ ds ++ r) =
      (if int_max_str_digits <? length ds
       then ([], Raised ValueError)
       else ([mkMatch (VInt (int_of_str (sign ++ ds))) (ws ++ sign ++ ds) r],
             Finished))
    /\ int_of_str (sign ++ ds) =
         if startswith (lit "-") sign
         then (- digits_value ds)%Z else digits_value ds.
Proof.
  intros fuel ws sign ds r Hws Hsign Hne Hds Hr. split.
  - cbn [match_]. unfold Integer_match.
    rewrite integer_span_token by assumption.
    assert (Hlen : length ws + length sign + length ds =
                   length (ws ++ sign ++ ds))
      by (rewrite !length_app; lia).
    assert (Hs : ws ++ sign ++ ds ++ r = (ws ++ sign ++ ds) ++ r)
      by (rewrite <- !app_assoc; reflexivity).
    rewrite Hlen, Hs, firstn_length_app, skipn_length_app, skipn_length_app.
    unfold py_int. rewrite (@token_digits sign ds Hsign Hds).
    destruct (int_max_str_digits <? length ds); reflexivity.
  - destruct Hsign as [->|(c & -> & Hc)].
    + change (startswith (lit "-") []) with false. cbn [app].
      destruct ds as [|d ds]; [congruence|].
      simpl in Hds. apply andb_true_iff in Hds. destruct Hds as [Hd _].
      unfold int_of_str. rewrite (digit_not_sign _ Hd). reflexivity.
    + change (startswith (lit "-") [c]) with (Ascii.eqb "-" c && true).
      cbn [app]. unfold int_of_str.
      rewrite Hc, minus_code, andb_true_r. reflexivity.
Qed.

Lemma Integer_reads_token_witness :
  match_ 0 Integer (lit " " ++ lit "-" ++ lit "42" ++ lit " rest") =
    ([mkMatch (VInt (int_of_str (lit "-" ++ lit "42")))
              (lit " " ++ lit "-" ++ lit "42") (lit " rest")],
     Finished)
  /\ int_of_str (lit "-" ++ lit "42") = (-42)%Z.
Proof.
  assert (Hsign : lit "-" = [] \/ (exists c, lit "-" = [c] /\ is_sign c = true)).
  { right. exists "-"%char. split; reflexivity. }
  assert (Hne : lit "42" <> []) by discriminate.
  exact (@Integer_reads_token 0 (lit " ") (lit "-") (lit "42") (lit " rest")
           eq_refl Hsign Hne eq_refl eq_refl).
Defined.

Lemma span_le (p : ascii -> bool) s : span p s <= length s.
Proof.
  induction s as [|c s IH]; simpl; [lia|]. destruct (p c); simpl; lia.
Qed.

Lemma length_firstn_span (p : ascii -> bool) s :
  length (firstn (span p s) s) = span p s.
Proof.
  rewrite length_firstn. apply Nat.min_l. apply span_le.
Qed.

Lemma skipn_firstn_app {A} (a b : list A) n :
  length a = n -> skipn n (a ++ b) = b.
Proof. intros <-. apply skipn_length_app. Qed.

(** X11: a match of [Integer] consumes whitespace, an optional sign and
    a non-empty run of digits, converts the signed token, and never stops
    in front of a digit: a number is never cut in two. *)
Theorem Integer_match_sound :
  forall fuel s m,
    In m (yielded (match_ fuel Integer s)) ->
    exists ws sign ds,
      forallb is_space ws = true
      /\ (sign = [] \/ exists c, sign = [c] /\ is_sign c = true)
      /\ ds <> []
      /\ forallb is_digit ds = true
      /\ s = ws ++ sign ++ ds ++ rest m
      /\ captured m = ws ++ sign ++ ds
      /\ converted m = VInt (int_of_str (sign ++ ds))
      /\ no_leading_digit (rest m) = true.
Proof.
  intros fuel s m H. cbn [match_] in H. unfold Integer_match, integer_span in H.
  set (w := span is_space s) in *.
  set (sg := match skipn w s with
             | c :: _ => if is_sign c then 1 else 0
             | [] => 0
             end) in *.
  set (d := span is_digit (skipn (w + sg) s)) in *.
  destruct (Nat.eqb_spec d 0) as [E|E]; simpl in H; [destruct H|].
  destruct (py_int (skipn w (firstn (w + sg + d) s))) as [exn|n] eqn:Ei;
    simpl in H; [destruct H|].
  unfold py_int in Ei.
  destruct (int_max_str_digits <? _) in Ei; [discriminate|].
  inversion Ei; subst n. clear Ei.
  destruct H as [<-|[]]. simpl.
  assert (Hcap : firstn (w + sg + d) s =
                 firstn w s ++ firstn sg (skipn w s)
                   ++ firstn d (skipn (w + sg) s)).
  { rewrite firstn_add, firstn_add, <- app_assoc. reflexivity. }
  exists (firstn w s), (firstn sg (skipn w s)), (firstn d (skipn (w + sg) s)).
  split; [apply span_all|].
  split.
  { subst sg. destruct (skipn w s) as [|c t]; [left; reflexivity|].
    destruct (is_sign c) eqn:Ec; [right; exists c; auto|left; reflexivity]. }
  split.
  { intros Hnil. apply E.
    pose proof (length_firstn_span is_digit (skipn (w + sg) s)) as Hl.
    fold d in Hl. rewrite Hnil in Hl. symmetry. exact Hl. }
  split; [apply span_all|].
  split.
  { rewrite !app_assoc, <- (app_assoc (firstn w s)), <- Hcap.
    symmetry. apply firstn_skipn. }
  split; [exact Hcap|].
  split.
  { rewrite Hcap. rewrite skipn_firstn_app by apply length_firstn_span.
    reflexivity. }
  replace (w + sg + d) with (d + (w + sg)) by lia.
  rewrite <- skipn_skipn. unfold no_leading_digit.
  pose proof (span_stops is_digit (skipn (w + sg) s)) as Hs. fold d in Hs.
  destruct (skipn d (skipn (w + sg) s)); [reflexivity|].
  rewrite Hs. reflexivity.
Qed.

Lemma Integer_match_sound_witness :
  In (mkMatch (VInt 42) (lit "42") (lit " rest"))
     (yielded (match_ 0 Integer (lit "42 rest")))
  /\ exists ws sign ds,
       forallb is_space ws = true
       /\ (sign = [] \/ exists c, sign = [c] /\ is_sign c = true)
       /\ ds <> []
       /\ forallb is_digit ds = true
       /\ lit "42 rest" = ws ++ sign ++ ds ++ lit " rest"
       /\ lit "42" = ws ++ sign ++ ds
       /\ VInt 42 = VInt (int_of_str (sign ++ ds))
       /\ no_leading_digit (lit " rest") = true.
Proof.
  split; [left; reflexivity|].
  apply (@Integer_match_sound 0 (lit "42 rest")
           (mkMatch (VInt 42) (lit "42") (lit " rest"))).
  left. reflexivity.
Defined.

(** X12: a match of [Word] consumes whitespace and a non-empty run of
    non-whitespace characters, converts to that run, and stops only at
    whitespace or at the end of the input: a word is never cut in two. *)
Theorem Word_match_sound :
  forall fuel s m,
    In m (yielded (match_ fuel Word s)) ->
    exists ws w,
      forallb is_space ws = true
      /\ w <> []
      /\ forallb (fun c => negb (is_space c)) w = true
      /\ s = ws ++ w ++ rest m
      /\ captured m = ws ++ w
      /\ converted m = VStr w
      /\ at_word_end (rest m) = true.
Proof.
  intros fuel s m H. cbn [match_] in H. unfold Word_match, word_span in H.
  set (w := span is_space s) in *.
  set (d := span (fun c => negb (is_space c)) (skipn w s)) in *.
  destruct (Nat.eqb_spec d 0) as [E|E]; simpl in H; [destruct H|].
  destruct H as [<-|[]]. simpl.
  assert (Hcap : firstn (w + d) s = firstn w s ++ firstn d (skipn w s))
    by apply firstn_add.
  exists (firstn w s), (firstn d (skipn w s)).
  split; [apply span_all|].
  split.
  { intros Hnil. apply E.
    pose proof (length_firstn_span (fun c => negb (is_space c)) (skipn w s))
      as Hl.
    fold d in Hl. rewrite Hnil in Hl. symmetry. exact Hl. }
  split; [apply span_all|].
  split.
  { rewrite app_assoc, <- Hcap. symmetry. apply firstn_skipn. }
  split; [exact Hcap|].
  split.
  { rewrite Hcap. rewrite skipn_firstn_app by apply length_firstn_span.
    reflexivity. }
  replace (w + d) with (d + w) by lia.
  rewrite <- skipn_skipn. unfold at_word_end.
  pose proof (span_stops (fun c => negb (is_space c)) (skipn w s)) as Hs.
  fold d in Hs.
  destruct (skipn d (skipn w s)); [reflexivity|].
  apply negb_false_iff in Hs. exact Hs.
Qed.

Lemma Word_match_sound_witness :
  In (mkMatch (VStr (lit "hello")) (lit "  hello") (lit " world"))
     (yielded (match_ 0 Word (lit "  hello world")))
  /\ exists ws w,
       forallb is_space ws = true
       /\ w <> []
       /\ forallb (fun c => negb (is_space c)) w = true
       /\ lit "  hello world" = ws ++ w ++ lit " world"
       /\ lit "  hello" = ws ++ w
       /\ VStr (lit "hello") = VStr w
       /\ at_word_end (lit " world") = true.
Proof.
  split; [left; reflexivity|].
  apply (@Word_match_sound 0 (lit "  hello world")
           (mkMatch (VStr (lit "hello")) (lit "  hello") (lit " world"))).
  left. reflexivity.
Defined.

(** X13: on whitespace, a non-empty run of non-whitespace characters and
    a remainder that is empty or begins with whitespace, [Word] yields
    exactly one match, converting to the run. *)
Theorem Word_reads_token :
  forall fuel ws w r,
    forallb is_space ws = true ->
    w <> [] ->
    forallb (fun c => negb (is_space c)) w = true ->
    at_word_end r = true ->
    match_ fuel Word (ws ++ w ++ r) =
      ([mkMatch (VStr w) (ws ++ w) r], Finished).
Proof.
  intros fuel ws w r Hws Hne Hw Hr. cbn [match_].
  unfold Word_match, word_span.
  assert (Hspan : span is_space (ws ++ w ++ r) = length ws).
  { apply span_app; [exact Hws|]. destruct w as [|c w]; [congruence|].
    simpl in Hw. apply andb_true_iff in Hw. destruct Hw as [Hc _].
    apply negb_true_iff in Hc. exact Hc. }
  rewrite Hspan, skipn_length_app.
  rewrite span_app; [|exact Hw|].
  2: { destruct r as [|c r]; [exact I|]. simpl in Hr. rewrite Hr. reflexivity. }
  destruct (Nat.eqb_spec (length w) 0) as [E|E].
  { destruct w; [congruence|discriminate]. }
  unfold gen_yield, gen_done. simpl.
  rewrite <- (length_app ws w), app_assoc.
  rewrite firstn_length_app, skipn_length_app, skipn_length_app.
  reflexivity.
Qed.

Lemma Word_reads_token_witness :
  match_ 0 Word (lit "  " ++ lit "hello" ++ lit " world") =
    ([mkMatch (VStr (lit "hello")) (lit "  " ++ lit "hello") (lit " world")],
     Finished).
Proof.
  assert (Hne : lit "hello" <> []) by discriminate.
  exact (@Word_reads_token 0 (lit "  ") (lit "hello") (lit " world")
           eq_refl Hne eq_refl eq_refl).
Defined.

(** ** How a match sequence can stop *)

Lemma match_partitions fuel sp : partitions (match_ fuel sp).
Proof.
  induction sp using Spec_tree_ind; cbn [match_];
    try (intros ? ? Hm; simpl in Hm; contradiction).
  - apply End_partitions.
  - apply Exact_partitions.
  - apply (replace_converted_partitions (fun m => f (converted m))). exact IHsp.
  - apply (replace_converted_partitions (fun _ => NON_CAPTURING)). exact IHsp.
  - apply Integer_partitions.
  - apply Word_partitions.
  - apply String_partitions.
  - apply StringWithout_partitions.
  - intros s m Hm. apply in_gen_for in Hm. destruct Hm as (spec & Hs & Hm).
    apply in_map_iff in Hs. destruct Hs as (o & <- & Ho).
    rewrite Forall_forall in H. exact (H o Ho s m Hm).
  - apply Sequence_match_partitions. rewrite Forall_map. exact H.
  - apply ZeroOrMore_partitions. exact IHsp.
  - apply OneOrMore_partitions. exact IHsp.
  - intros s m Hm. unfold NamedOr_match in Hm.
    apply in_gen_for in Hm. destruct Hm as ([name spec] & Hs & Hm).
    apply in_map_iff in Hs. destruct Hs as ([name' o] & Heq & Ho).
    simpl in Heq. inversion Heq; subst.
    apply in_gen_map in Hm. destruct Hm as (m0 & Hm0 & ->). simpl.
    rewrite Forall_forall in H. exact (H _ Ho s m0 Hm0).
  - intros s m Hm. unfold NamedAnd_match in Hm.
    apply in_gen_map in Hm. destruct Hm as (m0 & Hm0 & ->). simpl.
    revert s m0 Hm0. apply Sequence_match_partitions.
    rewrite !Forall_map. simpl. exact H.
Qed.

(** A spec that partitions its input is only ever continued on a string
    no longer than the one it was given. *)
Lemma partitions_rest_le (spec : Matcher) s m :
  partitions spec -> In m (yielded (spec s)) -> length (rest m) <= length s.
Proof.
  intros Hp Hm. apply Hp in Hm. rewrite <- Hm, length_app. lia.
Qed.

Lemma stop_gen_map {A B} (f : A -> B) g : stop (gen_map f g) = stop g.
Proof. reflexivity. Qed.

Lemma stop_gen_bind {A B} (body : A -> Gen B) (g : Gen A) :
  stop (gen_bind body g) = stop g
  \/ exists x, In x (yielded g) /\ stop (gen_bind body g) = stop (body x).
Proof.
  unfold gen_bind.
  destruct (stop_gen_for body (fst g)) as [Hf|(x & Hx & Hs)].
  - left. rewrite gen_then_finished by exact Hf. reflexivity.
  - destruct (stop (gen_for body (fst g))) eqn:E.
    + left. rewrite gen_then_finished by exact E. reflexivity.
    + right. exists x. split; [exact Hx|].
      rewrite gen_then_stopped by (rewrite E; discriminate).
      rewrite E. exact Hs.
    + right. exists x. split; [exact Hx|].
      rewrite gen_then_stopped by (rewrite E; discriminate).
      rewrite E. exact Hs.
Qed.

(** A repetition ends normally, runs out of budget, or stops the way its
    subspec stopped on a string no longer than the input. *)
Lemma traverse_stop subspec :
  partitions subspec ->
  forall fuel s history,
    stop (traverse subspec fuel s history) = Finished
    \/ stop (traverse subspec fuel s history) = Unfinished
    \/ exists s',
         length s' <= length s
         /\ stop (traverse subspec fuel s history) = stop (subspec s').
Proof.
  intros Hp.
  induction fuel as [|fuel IH]; intros s history; cbn [traverse];
    match goal with
    | |- context [gen_bind ?b ?g] =>
        change (stop (gen_yield history (gen_bind b g)))
          with (stop (gen_bind b g));
        destruct (stop_gen_bind b g) as [Hs|(m & Hm & Hs)]
    end; rewrite Hs.
  - right. right. exists s. split; [lia|reflexivity].
  - right. left. reflexivity.
  - right. right. exists s. split; [lia|reflexivity].
  - pose proof (@partitions_rest_le _ _ _ Hp Hm) as Hle.
    destruct (IH (rest m) (history ++ [m])) as [H|[H|(s' & Hl & H)]].
    + left. exact H.
    + right. left. exact H.
    + right. right. exists s'. split; [lia|exact H].
Qed.

Lemma extend_leaves_within child leaves new_leaves n :
  partitions child ->
  extend_leaves child leaves = inr new_leaves ->
  (forall leaf, In leaf leaves ->
                leaf <> [] /\ length (leaf_rest leaf) <= n) ->
  forall leaf, In leaf new_leaves ->
               leaf <> [] /\ length (leaf_rest leaf) <= n.
Proof.
  intros Hp H Hin leaf Hl. apply extend_leaves_inr in H. subst new_leaves.
  apply in_flat_map in Hl. destruct Hl as (l & Hl0 & Hl).
  apply in_map_iff in Hl. destruct Hl as (m & <- & Hm).
  split; [destruct l; discriminate|].
  rewrite leaf_rest_snoc. pose proof (@partitions_rest_le _ _ _ Hp Hm) as Hle.
  destruct (Hin l Hl0) as [_ Hn]. lia.
Qed.

Lemma extend_leaves_stop child leaves st n :
  extend_leaves child leaves = inl st ->
  (forall leaf, In leaf leaves ->
                leaf <> [] /\ length (leaf_rest leaf) <= n) ->
  exists s', length s' <= n /\ st = stop (child s').
Proof.
  induction leaves as [|leaf leaves IH]; simpl; intros H Hin; [discriminate|].
  unfold index_last in H.
  destruct (last_of leaf) as [lm|] eqn:El; simpl in H.
  - assert (Hn : length (rest lm) <= n).
    { destruct (Hin leaf (or_introl eq_refl)) as [_ Hn].
      unfold leaf_rest in Hn. rewrite El in Hn. exact Hn. }
    unfold drain in H at 1.
    destruct (snd (child (rest lm))) eqn:Es; simpl in H.
    + destruct (extend_leaves child leaves) as [st'|more]; simpl in H;
        [|discriminate].
      inversion H; subst. apply IH; [reflexivity|].
      intros l Hl. apply Hin. right. exact Hl.
    + inversion H; subst. exists (rest lm). unfold stop. auto.
    + inversion H; subst. exists (rest lm). unfold stop. auto.
  - apply last_of_none in El. exfalso.
    destruct (Hin leaf (or_introl eq_refl)) as [Hne _]. auto.
Qed.

Lemma expand_stop children n : forall leaves st,
  Forall partitions children ->
  expand children leaves = inl st ->
  (forall leaf, In leaf leaves ->
                leaf <> [] /\ length (leaf_rest leaf) <= n) ->
  exists child s',
    In child children /\ length s' <= n /\ st = stop (child s').
Proof.
  induction children as [|child children IH]; intros leaves st Hp H Hin.
  - discriminate.
  - destruct leaves as [|leaf0 leaves0]; [discriminate|].
    cbn [expand] in H. inversion Hp as [|? ? Hchild Hrest]; subst.
    destruct (extend_leaves child (leaf0 :: leaves0)) as [st'|new_leaves] eqn:Ee;
      simpl in H.
    + inversion H; subst.
      destruct (@extend_leaves_stop _ _ _ n Ee Hin) as (s' & Hl & Hs).
      exists child, s'. split; [left; reflexivity|]. split; assumption.
    + destruct (IH _ _ Hrest H (@extend_leaves_within _ _ _ n Hchild Ee Hin))
        as (c & s' & Hc & Hl & Hs).
      exists c, s'. split; [right; exact Hc|]. split; assumption.
Qed.

Lemma frontier_stop first children s st :
  Forall partitions (first :: children) ->
  frontier first children s = inl st ->
  exists child s',
    In child (first :: children)
    /\ length s' <= length s /\ st = stop (child s').
Proof.
  intros Hp. inversion Hp as [|? ? Hfirst Hrest]; subst.
  unfold frontier, drain. destruct (snd (first s)) eqn:Es; simpl.
  - intros H.
    assert (Hin : forall leaf,
               In leaf (map (fun m => [m]) (fst (first s))) ->
               leaf <> [] /\ length (leaf_rest leaf) <= length s).
    { intros leaf Hl. apply in_map_iff in Hl. destruct Hl as (m & <- & Hm).
      split; [discriminate|].
      change (leaf_rest [m]) with (rest m).
      apply (@partitions_rest_le _ _ _ Hfirst Hm). }
    destruct (@expand_stop children (length s) _ _ Hrest H Hin)
      as (c & s' & Hc & Hl & Hs).
    exists c, s'. split; [right; exact Hc|]. split; assumption.
  - intros H. inversion H; subst. exists first, s.
    split; [left; reflexivity|]. split; [lia|]. unfold stop. auto.
  - intros H. inversion H; subst. exists first, s.
    split; [left; reflexivity|]. split; [lia|]. unfold stop. auto.
Qed.

(** A non-empty sequence ends normally or stops the way one of its
    children stopped on a string no longer than the input. *)
Lemma Sequence_match_stop first children s :
  Forall partitions (first :: children) ->
  stop (Sequence_match (first :: children) s) = Finished
  \/ exists child s',
       In child (first :: children)
       /\ length s' <= length s
       /\ stop (Sequence_match (first :: children) s) = stop (child s').
Proof.
  intros Hp. rewrite Sequence_match_cons.
  destruct (frontier first children s) as [st|out] eqn:Ef;
    [|left; reflexivity].
  right. apply frontier_stop in Ef; [exact Ef|exact Hp].
Qed.

(** C9: the results of a non-empty sequence are those of the admissible
    combinations in nested-loop order, the first child in the outermost
    loop and the last child in the innermost one, so that the first
    result is the first combination the nested loops reach: a sequence
    that does not end normally has yielded nothing, one that does has
    yielded them all, and it does end normally whenever its children end
    normally on the strings no longer than the input. *)
Theorem Sequence_nested_loop_order :
  (forall fuel first children s,
      yielded (match_ fuel (Sequence (first :: children)) s) =
        match stop (match_ fuel (Sequence (first :: children)) s) with
        | Finished =>
            map (result_of s)
                (nested_loops (map (match_ fuel) (first :: children)) s)
        | _ => []
        end)
  /\ (forall fuel first children s,
        (forall child s',
            In child (first :: children) ->
            length s' <= length s ->
            stop (match_ fuel child s') = Finished) ->
        match_ fuel (Sequence (first :: children)) s =
          (map (result_of s)
               (nested_loops (map (match_ fuel) (first :: children)) s),
           Finished)).
Proof.
  split.
  - intros fuel first children s. cbn [match_ map].
    rewrite Sequence_match_cons.
    destruct (frontier _ _ s) as [st|out] eqn:Ef; [|reflexivity].
    apply frontier_inl in Ef.
    destruct st; [congruence|reflexivity|reflexivity].
  - intros fuel first children s Hfin. cbn [match_ map].
    rewrite Sequence_match_cons.
    destruct (frontier _ _ s) as [st|out] eqn:Ef; [|reflexivity].
    exfalso. pose proof (frontier_inl _ _ _ Ef) as Hst.
    apply frontier_stop in Ef.
    + destruct Ef as (c & s' & Hc & Hl & Hs).
      change (match_ fuel first :: map (match_ fuel) children)
        with (map (match_ fuel) (first :: children)) in Hc.
      apply in_map_iff in Hc. destruct Hc as (child & <- & Hchild).
      apply Hst. rewrite Hs. apply Hfin; assumption.
    + change (Forall partitions (map (match_ fuel) (first :: children))).
      rewrite Forall_map. apply Forall_forall. intros x _.
      apply match_partitions.
Qed.

Lemma length_token_le b e (s : str) :
  length (filter is_digit (skipn b (firstn e s))) <= length s.
Proof.
  pose proof (filter_length_le is_digit (skipn b (firstn e s))) as H.
  rewrite length_skipn, length_firstn in H. lia.
Qed.

(** [Integer] ends normally, or raises [ValueError] on an input longer
    than the digit limit. *)
Lemma Integer_match_stop s :
  stop (Integer_match s) = Finished
  \/ (stop (Integer_match s) = Raised ValueError
      /\ int_max_str_digits < length s).
Proof.
  unfold Integer_match. destruct (integer_span s) as [[b e]|];
    [|left; reflexivity].
  unfold py_int.
  destruct (Nat.ltb_spec int_max_str_digits
              (length (filter is_digit (skipn b (firstn e s))))) as [Hlt|Hge].
  - right. split; [reflexivity|].
    pose proof (length_token_le b e s). lia.
  - left. reflexivity.
Qed.

Section StopsByShape.
Variable P : Stop -> Prop.
Variables rep empty : bool.
Variable fuel : nat.
Variable bound : nat.
Hypothesis P_finished : P Finished.
Hypothesis P_unfinished : rep = true -> P Unfinished.
Hypothesis P_index : empty = true -> P (Raised IndexError).
Hypothesis P_value : int_max_str_digits < bound -> P (Raised ValueError).

Lemma Sequence_stop_by_shape (children : list Matcher) s :
  (empty || negb (is_nil children) = true) ->
  Forall partitions children ->
  length s <= bound ->
  (forall child s',
      In child children -> length s' <= bound -> P (stop (child s'))) ->
  P (stop (Sequence_match children s)).
Proof.
  intros Hshape Hp Hlen Hall. destruct children as [|first children].
  - simpl in Hshape. rewrite orb_false_r in Hshape.
    apply P_index. exact Hshape.
  - destruct (@Sequence_match_stop first children s Hp)
      as [Hf|(c & s' & Hc & Hl & Hs)].
    + rewrite Hf. exact P_finished.
    + rewrite Hs. apply Hall; [exact Hc|lia].
Qed.

Lemma repetition_stop_by_shape (subspec : Matcher) s :
  rep = true ->
  partitions subspec ->
  length s <= bound ->
  (forall s', length s' <= bound -> P (stop (subspec s'))) ->
  P (stop (ZeroOrMore_match subspec fuel s)).
Proof.
  intros Hrep Hp Hlen Hsub. unfold ZeroOrMore_match. rewrite stop_gen_map.
  destruct (@traverse_stop subspec Hp fuel s []) as [H|[H|(s' & Hl & H)]];
    rewrite H; auto. apply Hsub. lia.
Qed.

Lemma stop_by_shape : forall sp,
  spec_shape rep empty sp = true ->
  forall s, length s <= bound -> P (stop (match_ fuel sp s)).
Proof.
  induction sp using Spec_tree_ind; cbn [match_ spec_shape];
    intros Hshape; try discriminate; intros s0 Hlen.
  - unfold End_match. destruct (forallb is_space s0); exact P_finished.
  - unfold Exact_match. destruct (exact_end exact s0 _); exact P_finished.
  - rewrite stop_gen_map. apply IHsp; assumption.
  - rewrite stop_gen_map. apply IHsp; assumption.
  - destruct (Integer_match_stop s0) as [H|[H Hlt]]; rewrite H.
    + exact P_finished.
    + apply P_value. lia.
  - unfold Word_match. destruct (word_span s0) as [[b e]|]; exact P_finished.
  - exact P_finished.
  - unfold StringWithout_match. destruct s0; exact P_finished.
  - match goal with
    | |- context [gen_for ?b ?l] =>
        destruct (stop_gen_for b l) as [Hf|(spec & Hs & Hf)]
    end; rewrite Hf; [exact P_finished|].
    apply in_map_iff in Hs. destruct Hs as (o & <- & Ho).
    rewrite Forall_forall in H. apply (H o Ho); [|exact Hlen].
    rewrite forallb_forall in Hshape. apply Hshape. exact Ho.
  - apply andb_true_iff in Hshape. destruct Hshape as [Hne Hall].
    apply Sequence_stop_by_shape.
    + destruct sequence; [exact Hne|]. simpl. apply orb_true_r.
    + rewrite Forall_map. apply Forall_forall. intros x _.
      apply match_partitions.
    + exact Hlen.
    + intros child s' Hc Hl. apply in_map_iff in Hc.
      destruct Hc as (o & <- & Ho). rewrite Forall_forall in H.
      apply (H o Ho); [|exact Hl].
      rewrite forallb_forall in Hall. apply Hall. exact Ho.
  - apply andb_true_iff in Hshape. destruct Hshape as [Hrep Hsub].
    apply repetition_stop_by_shape;
      [exact Hrep|apply match_partitions|exact Hlen|].
    intros s' Hl. apply IHsp; assumption.
  - apply andb_true_iff in Hshape. destruct Hshape as [Hrep Hsub].
    unfold OneOrMore_match.
    change (P (stop (ZeroOrMore_match (match_ fuel sp) fuel s0))).
    apply repetition_stop_by_shape;
      [exact Hrep|apply match_partitions|exact Hlen|].
    intros s' Hl. apply IHsp; assumption.
  - unfold NamedOr_match.
    match goal with
    | |- context [gen_for ?b ?l] =>
        destruct (stop_gen_for b l) as [Hf|([name spec] & Hs & Hf)]
    end; rewrite Hf; [exact P_finished|].
    apply in_map_iff in Hs. destruct Hs as ([name' o] & Heq & Ho).
    simpl in Heq. inversion Heq; subst. rewrite stop_gen_map.
    rewrite Forall_forall in H. apply (H _ Ho); [|exact Hlen].
    rewrite forallb_forall in Hshape. apply (Hshape _ Ho).
  - apply andb_true_iff in Hshape. destruct Hshape as [Hne Hall].
    unfold NamedAnd_match. rewrite stop_gen_map.
    apply Sequence_stop_by_shape.
    + destruct d; [exact Hne|]. simpl. apply orb_true_r.
    + rewrite !Forall_map. apply Forall_forall. intros x _.
      apply match_partitions.
    + exact Hlen.
    + intros child s' Hc Hl. rewrite map_map in Hc. apply in_map_iff in Hc.
      destruct Hc as ([name o] & <- & Ho). simpl.
      rewrite Forall_forall in H. apply (H _ Ho); [|exact Hl].
      rewrite forallb_forall in Hall. apply (Hall _ Ho).
Qed.
End StopsByShape.

(** A tree without repetition and without empty sequences ends normally
    on an input within the digit limit. *)
Lemma short_input_finishes fuel sp s :
  spec_shape false false sp = true ->
  length s <= int_max_str_digits ->
  stop (match_ fuel sp s) = Finished.
Proof.
  intros Hshape Hlen.
  apply (@stop_by_shape (fun st => st = Finished) false false fuel
           int_max_str_digits); try discriminate; auto.
  intros H. lia.
Qed.

Lemma Sequence_nested_loop_order_witness :
  (forall child s',
      In child [String; String] ->
      length s' <= length (lit "abcd") ->
      stop (match_ 0 child s') = Finished)
  /\ match_ 0 (Sequence [String; String]) (lit "abcd") =
       ([ mkMatch (VList [VStr (lit "ab"); VStr (lit "c")]) (lit "abc")
                  (lit "d");
          mkMatch (VList [VStr (lit "a"); VStr (lit "bc")]) (lit "abc")
                  (lit "d");
          mkMatch (VList [VStr (lit "a"); VStr (lit "b")]) (lit "ab")
                  (lit "cd") ],
        Finished).
Proof.
  assert (H : forall child s',
             In child [String; String] ->
             length s' <= length (lit "abcd") ->
             stop (match_ 0 child s') = Finished).
  { intros child s' Hc Hl. apply short_input_finishes.
    - destruct Hc as [<-|[<-|[]]]; reflexivity.
    - simpl in Hl. unfold int_max_str_digits. lia. }
  split; [exact H|].
  exact (proj2 Sequence_nested_loop_order 0 String [String] (lit "abcd") H).
Defined.

(** X14: matching a tree of spec nodes in which no sequence (plain or
    named) is empty raises nothing but the [ValueError] of [int], and
    that only on an input longer than the digit limit: otherwise it ends
    normally, or does not end because of a repetition. *)
Theorem proper_tree_never_raises :
  forall fuel sp s,
    spec_shape true false sp = true ->
    stop (match_ fuel sp s) = Finished
    \/ stop (match_ fuel sp s) = Unfinished
    \/ (stop (match_ fuel sp s) = Raised ValueError
        /\ int_max_str_digits < length s).
Proof.
  intros fuel sp s Hshape.
  apply (@stop_by_shape
           (fun st => st = Finished \/ st = Unfinished
                      \/ (st = Raised ValueError
                          /\ int_max_str_digits < length s))
           true false fuel (length s)); auto; discriminate.
Qed.

Lemma proper_tree_never_raises_witness :
  spec_shape true false (ZeroOrMore (Sequence [Integer; End])) = true
  /\ (stop (match_ 1 (ZeroOrMore (Sequence [Integer; End])) (lit "4"))
        = Finished
      \/ stop (match_ 1 (ZeroOrMore (Sequence [Integer; End])) (lit "4"))
           = Unfinished
      \/ (stop (match_ 1 (ZeroOrMore (Sequence [Integer; End])) (lit "4"))
            = Raised ValueError
          /\ int_max_str_digits < length (lit "4"))).
Proof.
  split; [reflexivity|].
  apply (@proper_tree_never_raises 1 (ZeroOrMore (Sequence [Integer; End]))
           (lit "4")).
  reflexivity.
Defined.

(** X15: a tree of spec nodes without repetition and without empty
    sequences ends normally on every input within the digit limit; on a
    longer input it ends normally or raises the [ValueError] of [int]. *)
Theorem repetition_free_tree_finishes :
  forall fuel sp s,
    spec_shape false false sp = true ->
    stop (match_ fuel sp s) = Finished
    \/ (stop (match_ fuel sp s) = Raised ValueError
        /\ int_max_str_digits < length s).
Proof.
  intros fuel sp s Hshape.
  apply (@stop_by_shape
           (fun st => st = Finished
                      \/ (st = Raised ValueError
                          /\ int_max_str_digits < length s))
           false false fuel (length s)); auto; discriminate.
Qed.

Lemma repetition_free_tree_finishes_witness :
  spec_shape false false
    (Sequence [Either [String; Integer]; NonCapturing Word; End]) = true
  /\ (stop (match_ 0 (Sequence [Either [String; Integer]; NonCapturing Word;
                                End]) (lit "25 x")) = Finished
      \/ (stop (match_ 0 (Sequence [Either [String; Integer];
                                    NonCapturing Word; End]) (lit "25 x"))
            = Raised ValueError
          /\ int_max_str_digits < length (lit "25 x"))).
Proof.
  split; [reflexivity|].
  apply (@repetition_free_tree_finishes 0
           (Sequence [Either [String; Integer]; NonCapturing Word; End])
           (lit "25 x")).
  reflexivity.
Defined.

(** ** The sugar layer: what [_convert] produces *)

Lemma each_Forall {A B} (fn : A -> Exn + B) (Q : B -> Prop) xs : forall ys,
  Forall (fun x => forall y, fn x = inr y -> Q y) xs ->
  arg_parse.each fn xs = inr ys -> Forall Q ys.
Proof.
  induction xs as [|x xs IH]; simpl; intros ys Hall H.
  - inversion H. constructor.
  - inversion Hall as [|? ? Hx Hxs]; subst.
    destruct (fn x) as [e|y] eqn:Ex; [discriminate|].
    destruct (arg_parse.each fn xs) as [e|zs]; [discriminate|].
    inversion H; subst. constructor; auto.
Qed.

Lemma each_item_Forall {A B} (fn : A -> Exn + B) (Q : B -> Prop) d : forall ys,
  Forall (fun p => forall y, fn (snd p) = inr y -> Q y) d ->
  arg_parse.each_item fn d = inr ys ->
  Forall (fun p => Q (snd p)) ys /\ map fst ys = map fst d.
Proof.
  induction d as [|[name x] d IH]; simpl; intros ys Hall H.
  - inversion H. split; [constructor|reflexivity].
  - inversion Hall as [|? ? Hx Hxs]; subst. simpl in Hx.
    destruct (fn x) as [e|y] eqn:Ex; [discriminate|].
    destruct (arg_parse.each_item fn d) as [e|zs]; [discriminate|].
    inversion H; subst. destruct (IH zs Hxs eq_refl) as [Hq Hk].
    split; [constructor; auto|simpl; f_equal; exact Hk].
Qed.

Lemma each_fixed {A} (fn : A -> Exn + A) xs :
  Forall (fun x => fn x = inr x) xs -> arg_parse.each fn xs = inr xs.
Proof.
  induction 1 as [|x xs Hx _ IH]; simpl; [reflexivity|].
  rewrite Hx, IH. reflexivity.
Qed.

Lemma each_item_fixed {A} (fn : A -> Exn + A) (d : list (str * A)) :
  Forall (fun p => fn (snd p) = inr (snd p)) d ->
  arg_parse.each_item fn d = inr d.
Proof.
  induction 1 as [|[name x] d Hx _ IH]; simpl; [reflexivity|].
  simpl in Hx. rewrite Hx, IH. reflexivity.
Qed.

Lemma forallb_Forall {A} (f : A -> bool) l :
  forallb f l = true <-> Forall (fun x => f x = true) l.
Proof.
  rewrite forallb_forall, Forall_forall. reflexivity.
Qed.

(** Induction over descriptions: as over spec trees, and through plain
    lists and dicts as well. *)
Section DescriptionInduction.
Variable P : Spec -> Prop.

Hypothesis P_End : P End.
Hypothesis P_Exact : forall exact, P (Exact exact).
Hypothesis P_Transform : forall spec f, P spec -> P (Transform spec f).
Hypothesis P_NonCapturing : forall subspec, P subspec -> P (NonCapturing subspec).
Hypothesis P_Integer : P Integer.
Hypothesis P_Word : P Word.
Hypothesis P_String : P String.
Hypothesis P_StringWithout : forall exclude, P (StringWithout exclude).
Hypothesis P_Either : forall options, Forall P options -> P (Either options).
Hypothesis P_Sequence : forall sequence, Forall P sequence -> P (Sequence sequence).
Hypothesis P_ZeroOrMore : forall subspec, P subspec -> P (ZeroOrMore subspec).
Hypothesis P_OneOrMore : forall subspec, P subspec -> P (OneOrMore subspec).
Hypothesis P_NamedOr :
  forall d, Forall (fun p => P (snd p)) d -> P (NamedOr d).
Hypothesis P_NamedAnd :
  forall d, Forall (fun p => P (snd p)) d -> P (NamedAnd d).
Hypothesis P_PyList : forall items, Forall P items -> P (PyList items).
Hypothesis P_PyDict :
  forall items, Forall (fun p => P (snd p)) items -> P (PyDict items).
Hypothesis P_PyStr : forall s, P (PyStr s).
Hypothesis P_PyIntType : P PyIntType.
Hypothesis P_PyStrType : P PyStrType.
Hypothesis P_PyOther : P PyOther.

Lemma Description_ind : forall sp, P sp.
Proof.
  fix IH 1. intros sp. destruct sp.
  - apply P_End.
  - apply P_Exact.
  - apply P_Transform, IH.
  - apply P_NonCapturing, IH.
  - apply P_Integer.
  - apply P_Word.
  - apply P_String.
  - apply P_StringWithout.
  - apply P_Either. induction options; constructor; [apply IH|assumption].
  - apply P_Sequence. induction sequence; constructor; [apply IH|assumption].
  - apply P_ZeroOrMore, IH.
  - apply P_OneOrMore, IH.
  - apply P_NamedOr.
    induction options_dict as [|[name spec] d IHd]; constructor;
      [apply IH|assumption].
  - apply P_NamedAnd.
    induction sequence_dict as [|[name spec] d IHd]; constructor;
      [apply IH|assumption].
  - apply P_PyList. induction items; constructor; [apply IH|assumption].
  - apply P_PyDict.
    induction items as [|[name spec] d IHd]; constructor;
      [apply IH|assumption].
  - apply P_PyStr.
  - apply P_PyIntType.
  - apply P_PyStrType.
  - apply P_PyOther.
Qed.
End DescriptionInduction.


Lemma convert_shape : forall p sp,
  arg_parse._convert p = inr sp -> spec_shape true true sp = true.
Proof.
  induction p using Description_ind; intros sp0 Hc; simpl in Hc;
    unfold arg_parse.lift in Hc;
    try (inversion Hc; subst; reflexivity);
    try discriminate.
  - destruct (arg_parse._convert p) as [e|y] eqn:E; [discriminate|].
    inversion Hc; subst. simpl. eauto.
  - destruct (arg_parse._convert p) as [e|y] eqn:E; [discriminate|].
    inversion Hc; subst. simpl. eauto.
  - destruct (arg_parse.each arg_parse._convert options) as [e|ys] eqn:E;
      [discriminate|].
    inversion Hc; subst. simpl. apply forallb_Forall.
    eapply each_Forall; [|exact E]. exact H.
  - destruct (arg_parse.each arg_parse._convert sequence) as [e|ys] eqn:E;
      [discriminate|].
    inversion Hc; subst. simpl. apply forallb_Forall.
    eapply each_Forall; [|exact E]. exact H.
  - destruct (arg_parse._convert p) as [e|y] eqn:E; [discriminate|].
    inversion Hc; subst. simpl. eauto.
  - destruct (arg_parse._convert p) as [e|y] eqn:E; [discriminate|].
    inversion Hc; subst. simpl. eauto.
  - destruct (arg_parse.each_item arg_parse._convert d) as [e|ys] eqn:E;
      [discriminate|].
    inversion Hc; subst. simpl. apply forallb_Forall.
    apply (proj1 (@each_item_Forall _ _ arg_parse._convert
                    (fun y => spec_shape true true y = true) d ys H E)).
  - destruct (arg_parse.each_item arg_parse._convert d) as [e|ys] eqn:E;
      [discriminate|].
    inversion Hc; subst. simpl. apply forallb_Forall.
    apply (proj1 (@each_item_Forall _ _ arg_parse._convert
                    (fun y => spec_shape true true y = true) d ys H E)).
  - destruct (arg_parse.each arg_parse._convert items) as [e|ys] eqn:E;
      [discriminate|].
    inversion Hc; subst. simpl. apply forallb_Forall.
    eapply each_Forall; [|exact E]. exact H.
  - destruct (arg_parse.each_item arg_parse._convert items) as [e|ys] eqn:E;
      [discriminate|].
    inversion Hc; subst. simpl. apply forallb_Forall.
    apply (proj1 (@each_item_Forall _ _ arg_parse._convert
                    (fun y => spec_shape true true y = true) items ys H E)).
Qed.

Lemma convert_fixed : forall sp,
  spec_shape true true sp = true -> arg_parse._convert sp = inr sp.
Proof.
  induction sp using Spec_tree_ind; cbn [spec_shape]; intros Hshape;
    try discriminate; try reflexivity; simpl; unfold arg_parse.lift.
  - rewrite IHsp by exact Hshape. reflexivity.
  - rewrite IHsp by exact Hshape. reflexivity.
  - rewrite each_fixed; [reflexivity|].
    apply forallb_Forall in Hshape. rewrite Forall_forall in *.
    intros x Hx. apply H; auto.
  - rewrite each_fixed; [reflexivity|].
    simpl in Hshape. apply forallb_Forall in Hshape. rewrite Forall_forall in *.
    intros x Hx. apply H; auto.
  - simpl in Hshape. rewrite IHsp by exact Hshape. reflexivity.
  - simpl in Hshape. rewrite IHsp by exact Hshape. reflexivity.
  - rewrite each_item_fixed; [reflexivity|].
    apply forallb_Forall in Hshape. rewrite Forall_forall in *.
    intros x Hx. apply H; auto.
  - rewrite each_item_fixed; [reflexivity|].
    simpl in Hshape. apply forallb_Forall in Hshape. rewrite Forall_forall in *.
    intros x Hx. apply H; auto.
Qed.

(** X16: what [_convert] returns is a tree of spec nodes only, and
    matching it never raises [AttributeError] or [TypeError]: it ends
    normally, does not end, or raises the [IndexError] of an empty
    sequence or, on an input longer than the digit limit, the
    [ValueError] of [int]. *)
Theorem converted_pattern_is_a_spec_tree :
  forall fuel p sp s,
    arg_parse._convert p = inr sp ->
    spec_shape true true sp = true
    /\ (stop (match_ fuel sp s) = Finished
        \/ stop (match_ fuel sp s) = Unfinished
        \/ stop (match_ fuel sp s) = Raised IndexError
        \/ (stop (match_ fuel sp s) = Raised ValueError
            /\ int_max_str_digits < length s)).
Proof.
  intros fuel p sp s Hc. pose proof (convert_shape _ Hc) as Hshape.
  split; [exact Hshape|].
  apply (@stop_by_shape
           (fun st => st = Finished \/ st = Unfinished
                      \/ st = Raised IndexError
                      \/ (st = Raised ValueError
                          /\ int_max_str_digits < length s))
           true true fuel (length s)); auto 6.
Qed.

Lemma converted_pattern_is_a_spec_tree_witness :
  arg_parse._convert (PyList [PyStr (lit "a"); PyList []]) =
    inr (Sequence [NonCapturing (Exact (lit "a")); Sequence []])
  /\ stop (match_ 0 (Sequence [NonCapturing (Exact (lit "a")); Sequence []])
                  (lit "a")) = Raised IndexError.
Proof.
  split; [reflexivity|].
  destruct (proj2 (@converted_pattern_is_a_spec_tree 0
                     (PyList [PyStr (lit "a"); PyList []])
                     (Sequence [NonCapturing (Exact (lit "a")); Sequence []])
                     (lit "a") eq_refl)) as [H|[H|[H|[H _]]]];
    try discriminate H; exact H.
Defined.

(** X17: [_convert] is idempotent: converting a converted pattern again
    succeeds and changes nothing. *)
Theorem convert_idempotent :
  forall p sp,
    arg_parse._convert p = inr sp -> arg_parse._convert sp = inr sp.
Proof.
  intros p sp H. apply convert_fixed. apply (convert_shape _ H).
Qed.

Lemma convert_idempotent_witness :
  arg_parse._convert ban_pattern =
    inr (Sequence
           [ NonCapturing (Exact (lit "/")); NonCapturing (Exact (lit "ban"));
             Sequence [ NonCapturing (Exact (lit "[")); StringWithout (lit "|");
                        NonCapturing (Exact (lit "|")); StringWithout (lit "]");
                        NonCapturing (Exact (lit "]")) ];
             Integer ])
  /\ arg_parse._convert
       (Sequence
          [ NonCapturing (Exact (lit "/")); NonCapturing (Exact (lit "ban"));
            Sequence [ NonCapturing (Exact (lit "[")); StringWithout (lit "|");
                       NonCapturing (Exact (lit "|")); StringWithout (lit "]");
                       NonCapturing (Exact (lit "]")) ];
            Integer ]) =
     inr (Sequence
            [ NonCapturing (Exact (lit "/")); NonCapturing (Exact (lit "ban"));
              Sequence [ NonCapturing (Exact (lit "[")); StringWithout (lit "|");
                         NonCapturing (Exact (lit "|")); StringWithout (lit "]");
                         NonCapturing (Exact (lit "]")) ];
              Integer ]).
Proof.
  split; [reflexivity|].
  apply (@convert_idempotent ban_pattern). reflexivity.
Defined.

Lemma each_by_validity {A B} (fn : A -> Exn + B) (valid : A -> bool) xs :
  Forall (fun x => (valid x = true -> exists y, fn x = inr y)
                   /\ (valid x = false -> fn x = inl TypeError)) xs ->
  (forallb valid xs = true -> exists ys, arg_parse.each fn xs = inr ys)
  /\ (forallb valid xs = false -> arg_parse.each fn xs = inl TypeError).
Proof.
  induction 1 as [|x xs [Hv Hi] _ [IHv IHi]]; simpl.
  - split; [eauto|discriminate].
  - destruct (valid x).
    + destruct (Hv eq_refl) as (y & ->). simpl. split.
      * intros Hxs. destruct (IHv Hxs) as (ys & ->). eauto.
      * intros Hxs. rewrite (IHi Hxs). reflexivity.
    + rewrite (Hi eq_refl). split; [discriminate|reflexivity].
Qed.

Lemma each_item_by_validity {A B} (fn : A -> Exn + B) (valid : A -> bool)
  (d : list (str * A)) :
  Forall (fun p => (valid (snd p) = true -> exists y, fn (snd p) = inr y)
                   /\ (valid (snd p) = false -> fn (snd p) = inl TypeError)) d ->
  (forallb (fun p => valid (snd p)) d = true ->
   exists ys, arg_parse.each_item fn d = inr ys)
  /\ (forallb (fun p => valid (snd p)) d = false ->
      arg_parse.each_item fn d = inl TypeError).
Proof.
  induction 1 as [|[name x] d [Hv Hi] _ [IHv IHi]]; simpl in *.
  - split; [eauto|discriminate].
  - destruct (valid x).
    + destruct (Hv eq_refl) as (y & ->). simpl. split.
      * intros Hxs. destruct (IHv Hxs) as (ys & ->). eauto.
      * intros Hxs. rewrite (IHi Hxs). reflexivity.
    + rewrite (Hi eq_refl). split; [discriminate|reflexivity].
Qed.

Lemma convert_by_validity : forall p,
  (valid_description p = true -> exists sp, arg_parse._convert p = inr sp)
  /\ (valid_description p = false -> arg_parse._convert p = inl TypeError).
Proof.
  induction p using Description_ind; simpl; unfold arg_parse.lift;
    try (split; [eauto|discriminate]);
    try (split; [discriminate|reflexivity]).
  - destruct IHp as [Hv Hi]. destruct (valid_description p).
    + destruct (Hv eq_refl) as (y & ->). split; [eauto|discriminate].
    + rewrite (Hi eq_refl). split; [discriminate|reflexivity].
  - destruct IHp as [Hv Hi]. destruct (valid_description p).
    + destruct (Hv eq_refl) as (y & ->). split; [eauto|discriminate].
    + rewrite (Hi eq_refl). split; [discriminate|reflexivity].
  - destruct (each_by_validity arg_parse._convert valid_description H)
      as [Hv Hi].
    destruct (forallb valid_description options).
    + destruct (Hv eq_refl) as (ys & ->). split; [eauto|discriminate].
    + rewrite (Hi eq_refl). split; [discriminate|reflexivity].
  - destruct (each_by_validity arg_parse._convert valid_description H)
      as [Hv Hi].
    destruct (forallb valid_description sequence).
    + destruct (Hv eq_refl) as (ys & ->). split; [eauto|discriminate].
    + rewrite (Hi eq_refl). split; [discriminate|reflexivity].
  - destruct IHp as [Hv Hi]. destruct (valid_description p).
    + destruct (Hv eq_refl) as (y & ->). split; [eauto|discriminate].
    + rewrite (Hi eq_refl). split; [discriminate|reflexivity].
  - destruct IHp as [Hv Hi]. destruct (valid_description p).
    + destruct (Hv eq_refl) as (y & ->). split; [eauto|discriminate].
    + rewrite (Hi eq_refl). split; [discriminate|reflexivity].
  - destruct (each_item_by_validity arg_parse._convert valid_description H)
      as [Hv Hi].
    destruct (forallb (fun p => valid_description (snd p)) d).
    + destruct (Hv eq_refl) as (ys & ->). split; [eauto|discriminate].
    + rewrite (Hi eq_refl). split; [discriminate|reflexivity].
  - destruct (each_item_by_validity arg_parse._convert valid_description H)
      as [Hv Hi].
    destruct (forallb (fun p => valid_description (snd p)) d).
    + destruct (Hv eq_refl) as (ys & ->). split; [eauto|discriminate].
    + rewrite (Hi eq_refl). split; [discriminate|reflexivity].
  - destruct (each_by_validity arg_parse._convert valid_description H)
      as [Hv Hi].
    destruct (forallb valid_description items).
    + destruct (Hv eq_refl) as (ys & ->). split; [eauto|discriminate].
    + rewrite (Hi eq_refl). split; [discriminate|reflexivity].
  - destruct (each_item_by_validity arg_parse._convert valid_description H)
      as [Hv Hi].
    destruct (forallb (fun p => valid_description (snd p)) items).
    + destruct (Hv eq_refl) as (ys & ->). split; [eauto|discriminate].
    + rewrite (Hi eq_refl). split; [discriminate|reflexivity].
Qed.

(** X18: [_convert] fails in one way only: it returns a spec when no
    unclassifiable object occurs anywhere in the description, and raises
    [TypeError] otherwise. *)
Theorem convert_raises_only_TypeError :
  forall p,
    (valid_description p = true /\ exists sp, arg_parse._convert p = inr sp)
    \/ (valid_description p = false /\ arg_parse._convert p = inl TypeError).
Proof.
  intros p. destruct (convert_by_validity p) as [Hv Hi].
  destruct (valid_description p).
  - left. split; [reflexivity|]. apply Hv. reflexivity.
  - right. split; [reflexivity|]. apply Hi. reflexivity.
Qed.

Lemma with_end_valid pattern :
  valid_description (arg_parse.with_end pattern) = valid_description pattern.
Proof.
  destruct pattern; simpl; rewrite ?andb_true_r; try reflexivity.
  rewrite forallb_app. simpl. apply andb_true_r.
Qed.

(** X19: the top-level [match] raises [TypeError] on a description that
    holds an unclassifiable object, whatever the string: the description
    is converted before anything is matched. *)
Theorem match_invalid_description_raises :
  forall fuel pattern s,
    valid_description pattern = false ->
    arg_parse.match_ fuel pattern s = inl (Raised TypeError).
Proof.
  intros fuel pattern s H. unfold arg_parse.match_.
  destruct (convert_by_validity (arg_parse.with_end pattern)) as [_ Hi].
  rewrite Hi; [reflexivity|]. rewrite with_end_valid. exact H.
Qed.

Lemma match_invalid_description_raises_witness :
  arg_parse.match_ 0 (PyList [PyIntType; PyDict [(lit "k", PyOther)]])
                   (lit "12 x") = inl (Raised TypeError).
Proof.
  apply (@match_invalid_description_raises 0
           (PyList [PyIntType; PyDict [(lit "k", PyOther)]]) (lit "12 x")).
  reflexivity.
Defined.

Lemma admissible_last children child : forall s path,
  admissible (children ++ [child]) s path ->
  exists m s', last_of path = Some m /\ In m (yielded (child s')).
Proof.
  induction children as [|c children IH]; intros s path H;
    inversion H as [|? ? ? m ms Hm Hms]; subst.
  - inversion Hms; subst. exists m, s. split; [reflexivity|exact Hm].
  - destruct (IH _ _ Hms) as (m' & s' & Hl & Hin). exists m', s'.
    rewrite last_of_cons, Hl. split; [reflexivity|exact Hin].
Qed.

Lemma convert_with_end pattern sp :
  arg_parse._convert (arg_parse.with_end pattern) = inr sp ->
  exists children, sp = Sequence (children ++ [End]).
Proof.
  destruct (with_end_shape pattern) as (items & ->). simpl.
  unfold arg_parse.lift.
  destruct (arg_parse.each arg_parse._convert (items ++ [End])) as [e|ys] eqn:E;
    [discriminate|].
  intros H. inversion H; subst.
  destruct (each_snoc _ _ _ E) as (ys' & y & -> & Hy).
  simpl in Hy. inversion Hy; subst. exists ys'. reflexivity.
Qed.

Lemma next_or_none_some {A} (g : Gen A) x :
  next_or_none g = inr (Some x) -> In x (yielded g).
Proof.
  destruct g as [[|y l] st]; simpl.
  - destruct st; discriminate.
  - intros H. inversion H; subst. left. reflexivity.
Qed.

(** X20: a successful top-level [match] has consumed the whole string:
    the returned record captures all of it, leaves an empty rest, and its
    converted value is a list. *)
Theorem match_consumes_whole_input :
  forall fuel pattern s m,
    arg_parse.match_ fuel pattern s = inr (Some m) ->
    captured m = s /\ rest m = [] /\ exists vs, converted m = VList vs.
Proof.
  intros fuel pattern s m H. unfold arg_parse.match_ in H.
  destruct (arg_parse._convert (arg_parse.with_end pattern)) as [e|sp] eqn:Ec;
    [discriminate|].
  destruct (convert_with_end _ Ec) as (children & ->).
  unfold first_match in H. apply next_or_none_some in H.
  cbn [match_] in H. rewrite map_app in H. cbn [map] in H.
  assert (Hparts : Forall partitions
                     (map (match_ fuel) children ++ [match_ fuel End])).
  { apply Forall_app. split.
    - rewrite Forall_map. apply Forall_forall. intros x _.
      apply match_partitions.
    - constructor; [apply match_partitions|constructor]. }
  remember (map (match_ fuel) children) as cs eqn:Ecs. clear Ecs.
  assert (Hpath : exists path,
             admissible (cs ++ [match_ fuel End]) s path
             /\ m = result_of s path).
  { destruct cs as [|first cs]; cbn [app] in H;
      apply Sequence_match_in in H; destruct H as (path & Hp & ->);
      exists path; (split; [|reflexivity]);
      apply nested_loops_admissible; exact Hp. }
  destruct Hpath as (path & Hadm & ->).
  pose proof (admissible_partition Hadm Hparts) as Hpart.
  destruct (admissible_last _ _ Hadm) as (m' & s' & Hl & Hin).
  cbn [match_] in Hin. unfold End_match in Hin.
  destruct (forallb is_space s'); simpl in Hin; [|contradiction].
  destruct Hin as [<-|[]].
  assert (Hrest : rest (result_of s path) = []).
  { unfold result_of. simpl. rewrite Hl. reflexivity. }
  rewrite Hrest, app_nil_r in Hpart.
  split; [exact Hpart|]. split; [exact Hrest|].
  unfold result_of, capturing_values. simpl. eauto.
Qed.

Lemma match_consumes_whole_input_witness :
  captured (mkMatch
              (VList [VList [VStr (lit "hello"); VStr (lit "world")]; VInt 42])
              ban_message []) = ban_message
  /\ rest (mkMatch
             (VList [VList [VStr (lit "hello"); VStr (lit "world")]; VInt 42])
             ban_message []) = []
  /\ exists vs,
       converted (mkMatch
                    (VList [VList [VStr (lit "hello"); VStr (lit "world")];
                            VInt 42])
                    ban_message []) = VList vs.
Proof.
  apply (@match_consumes_whole_input 0 ban_pattern ban_message
           (mkMatch
              (VList [VList [VStr (lit "hello"); VStr (lit "world")]; VInt 42])
              ban_message [])).
  reflexivity.
Defined.

(** ** Repetition over leaves that consume input *)

Lemma skipn_shorter {A} (l : list A) n :
  0 < n -> l <> [] -> length (skipn n l) < length l.
Proof.
  intros Hn Hl. rewrite length_skipn.
  destruct l; [congruence|]. cbn [length]. lia.
Qed.

Lemma span_positive (p : ascii -> bool) (s : str) n :
  span p (skipn n s) <> 0 -> s <> [].
Proof.
  intros H ->. apply H. rewrite skipn_nil. reflexivity.
Qed.

Lemma Exact_shrinks exact : exact <> [] -> shrinks (Exact_match exact).
Proof.
  intros Hne s m. unfold Exact_match.
  destruct (exact_end exact s (span is_space s)) as [e|] eqn:E; simpl;
    [|intros []].
  intros [<-|[]]. simpl.
  apply exact_end_inv in E. destruct E as (k & _ & Hs & ->).
  apply skipn_shorter.
  - destruct exact; [congruence|]. simpl. lia.
  - intros ->. rewrite skipn_nil in Hs. destruct exact; [congruence|].
    discriminate.
Qed.

Lemma Integer_shrinks : shrinks Integer_match.
Proof.
  intros s m. unfold Integer_match, integer_span.
  set (w := span is_space s).
  set (sg := match skipn w s with
             | c :: _ => if is_sign c then 1 else 0
             | [] => 0
             end).
  set (d := span is_digit (skipn (w + sg) s)).
  destruct (Nat.eqb_spec d 0) as [E|E]; simpl; [intros []|].
  destruct (py_int (skipn w (firstn (w + sg + d) s))) as [exn|n]; simpl;
    [intros []|].
  intros [<-|[]]. simpl. apply skipn_shorter; [lia|].
  apply (@span_positive is_digit s (w + sg)). exact E.
Qed.

Lemma Word_shrinks : shrinks Word_match.
Proof.
  intros s m. unfold Word_match, word_span.
  set (w := span is_space s).
  set (d := span (fun c => negb (is_space c)) (skipn w s)).
  destruct (Nat.eqb_spec d 0) as [E|E]; simpl; [intros []|].
  intros [<-|[]]. simpl. apply skipn_shorter; [lia|].
  apply (@span_positive (fun c => negb (is_space c)) s w). exact E.
Qed.

Lemma StringWithout_shrinks exclude : shrinks (StringWithout_match exclude).
Proof.
  intros s m. unfold StringWithout_match. destruct s as [|c s]; [intros []|].
  simpl fst. unfold yielded. simpl fst. intros H.
  apply in_map_iff in H. destruct H as (i & <- & Hi).
  apply in_seq in Hi. unfold split_match. simpl rest.
  apply skipn_shorter; [lia|discriminate].
Qed.

Lemma advancing_leaf_shrinks fuel sp :
  advancing_leaf sp = true -> shrinks (match_ fuel sp).
Proof.
  destruct sp; simpl; try discriminate; intros H.
  - apply Exact_shrinks. destruct exact; [discriminate|discriminate].
  - apply Integer_shrinks.
  - apply Word_shrinks.
  - exact (String_shrinks fuel).
  - apply StringWithout_shrinks.
Qed.

Lemma advancing_leaf_shape sp :
  advancing_leaf sp = true -> spec_shape false false sp = true.
Proof. destruct sp; simpl; try discriminate; reflexivity. Qed.

(** X21: every match of [Integer], [Word], [String], [StringWithout] and
    of an [Exact] with a non-empty literal consumes at least one
    character; so a repetition of such a leaf, zero-or-more or
    one-or-more, never runs out of a recursion budget that covers the
    length of the input: it ends normally, or raises the [ValueError] of
    [int] on an input longer than the digit limit. *)
Theorem repetition_of_advancing_leaf_finishes :
  forall fuel sp s,
    advancing_leaf sp = true ->
    length s <= fuel ->
    (forall m, In m (yielded (match_ fuel sp s)) ->
               length (rest m) < length s)
    /\ (stop (match_ fuel (ZeroOrMore sp) s) = Finished
        \/ (stop (match_ fuel (ZeroOrMore sp) s) = Raised ValueError
            /\ int_max_str_digits < length s))
    /\ stop (match_ fuel (OneOrMore sp) s) =
         stop (match_ fuel (ZeroOrMore sp) s).
Proof.
  intros fuel sp s Hadv Hlen.
  pose proof (@advancing_leaf_shrinks fuel sp Hadv) as Hshrink.
  assert (Hleaf : forall s',
             length s' <= length s ->
             stop (match_ fuel sp s') = Finished
             \/ (stop (match_ fuel sp s') = Raised ValueError
                 /\ int_max_str_digits < length s)).
  { intros s' Hl.
    apply (@stop_by_shape
             (fun st => st = Finished
                        \/ (st = Raised ValueError
                            /\ int_max_str_digits < length s))
             false false fuel (length s)); auto; try discriminate.
    apply advancing_leaf_shape. exact Hadv. }
  split; [intros m; apply Hshrink|]. split; [|reflexivity].
  cbn [match_]. unfold ZeroOrMore_match. rewrite stop_gen_map.
  assert (Hnot : stop (traverse (match_ fuel sp) fuel s []) <> Unfinished).
  { apply (traverse_terminates_within Hshrink); [|exact Hlen].
    intros s' Hl. destruct (Hleaf s' Hl) as [H|[H _]]; rewrite H;
      discriminate. }
  destruct (traverse_stop (match_partitions fuel sp) fuel s [])
    as [H|[H|(s' & Hl & H)]].
  - left. exact H.
  - contradiction.
  - rewrite H. apply Hleaf. exact Hl.
Qed.

Lemma repetition_of_advancing_leaf_finishes_witness :
  (forall m, In m (yielded (match_ 5 Integer (lit "1 2 3"))) ->
             length (rest m) < length (lit "1 2 3"))
  /\ (stop (match_ 5 (ZeroOrMore Integer) (lit "1 2 3")) = Finished
      \/ (stop (match_ 5 (ZeroOrMore Integer) (lit "1 2 3"))
            = Raised ValueError
          /\ int_max_str_digits < length (lit "1 2 3")))
  /\ stop (match_ 5 (OneOrMore Integer) (lit "1 2 3")) =
       stop (match_ 5 (ZeroOrMore Integer) (lit "1 2 3")).
Proof.
  apply (@repetition_of_advancing_leaf_finishes 5 Integer (lit "1 2 3")).
  - reflexivity.
  - simpl. lia.
Defined.

(** ** Containers *)

Lemma capturing_values_no_marker path :
  exists vs, capturing_values path = VList vs /\ ~ In NON_CAPTURING vs.
Proof.
  unfold capturing_values. eexists. split; [reflexivity|].
  intros H. apply filter_In in H. destruct H as [_ H]. discriminate.
Qed.

Lemma Sequence_match_result children s m :
  In m (yielded (Sequence_match children s)) ->
  exists path, admissible children s path /\ m = result_of s path.
Proof.
  destruct children as [|first children].
  - simpl. intros [<-|[]]. exists []. split; [constructor|reflexivity].
  - intros H. apply Sequence_match_in in H. destruct H as (path & Hp & ->).
    exists path. split; [|reflexivity].
    apply nested_loops_admissible. exact Hp.
Qed.

(** X22: the list a [Sequence], a [ZeroOrMore] or a [OneOrMore] converts
    to never holds the non-capturing marker: values of non-capturing
    children are dropped, not kept as placeholders. *)
Theorem list_results_hold_no_marker :
  forall fuel sp s m,
    builds_list sp = true ->
    In m (yielded (match_ fuel sp s)) ->
    exists vs, converted m = VList vs /\ ~ In NON_CAPTURING vs.
Proof.
  intros fuel sp s m Hb H.
  assert (Hz : forall subspec m0,
             In m0 (yielded (ZeroOrMore_match subspec fuel s)) ->
             exists vs, converted m0 = VList vs /\ ~ In NON_CAPTURING vs).
  { intros subspec m0 H0. unfold ZeroOrMore_match in H0.
    apply in_gen_map in H0. destruct H0 as (h & _ & ->).
    apply capturing_values_no_marker. }
  destruct sp; try discriminate; cbn [match_] in H.
  - apply Sequence_match_result in H. destruct H as (path & _ & ->).
    apply capturing_values_no_marker.
  - apply (Hz _ _ H).
  - unfold OneOrMore_match, gen_filter, yielded in H. simpl in H.
    apply filter_In in H. destruct H as [H _]. apply (Hz _ _ H).
Qed.

Lemma list_results_hold_no_marker_witness :
  In (mkMatch (VList [VInt 7]) (lit "7 x") [])
     (yielded (match_ 0 (Sequence [Integer; NonCapturing Word]) (lit "7 x")))
  /\ exists vs, VList [VInt 7] = VList vs /\ ~ In NON_CAPTURING vs.
Proof.
  split; [left; reflexivity|].
  apply (@list_results_hold_no_marker 0
           (Sequence [Integer; NonCapturing Word]) (lit "7 x")
           (mkMatch (VList [VInt 7]) (lit "7 x") [])).
  - reflexivity.
  - left. reflexivity.
Defined.

(** X23: a non-empty [Sequence] is all or nothing: unless it ends
    normally it yields no match at all, because every child is matched
    to exhaustion before the first result is built. *)
Theorem Sequence_all_or_nothing :
  forall fuel first children s,
    stop (match_ fuel (Sequence (first :: children)) s) <> Finished ->
    yielded (match_ fuel (Sequence (first :: children)) s) = [].
Proof.
  intros fuel first children s. cbn [match_ map].
  rewrite Sequence_match_cons.
  destruct (frontier (match_ fuel first) (map (match_ fuel) children) s);
    simpl; [reflexivity|]. intros H. exfalso. apply H. reflexivity.
Qed.

Lemma Sequence_all_or_nothing_witness :
  stop (match_ 0 (Sequence [Integer; Sequence []]) (lit "1 2")) <> Finished
  /\ yielded (match_ 0 (Sequence [Integer; Sequence []]) (lit "1 2")) = [].
Proof.
  assert (H : stop (match_ 0 (Sequence [Integer; Sequence []]) (lit "1 2"))
              <> Finished)
    by (vm_compute; discriminate).
  split; [exact H|].
  apply (@Sequence_all_or_nothing 0 Integer [Sequence []] (lit "1 2") H).
Defined.

(** X24: a [Sequence] of one child yields one match per match of the
    child, in the same order, wrapping the converted value in a list
    (an empty list when the child is non-capturing). *)
Theorem Sequence_of_one :
  forall fuel X s,
    stop (match_ fuel X s) = Finished ->
    match_ fuel (Sequence [X]) s =
      (map singleton_result (yielded (match_ fuel X s)), Finished).
Proof.
  intros fuel X s Hfin. cbn [match_ map]. rewrite Sequence_match_cons.
  unfold frontier, drain. unfold stop in Hfin. rewrite Hfin.
  cbn [ebind expand nested_loops map]. f_equal.
  rewrite (flat_map_singleton (fun m => [m])), map_map.
  apply map_ext. intros m. unfold result_of, singleton_result,
    capturing_values, join_captured. simpl.
  rewrite app_nil_r. destruct (is_capturing (converted m)); reflexivity.
Qed.

Lemma Sequence_of_one_witness :
  match_ 0 (Sequence [String]) (lit "abc") =
    (map singleton_result (yielded (match_ 0 String (lit "abc"))), Finished).
Proof.
  apply (@Sequence_of_one 0 String (lit "abc")). reflexivity.
Defined.

(** X25: [record] builds the same spec as [tag], a [NamedOr]: each of
    its results is a match of one option, converted to a dict with that
    option's name as its only key. *)
Theorem record_matches_one_option :
  forall fuel mapping s m,
    In m (yielded (match_ fuel (arg_parse.record mapping) s)) ->
    arg_parse.record mapping = arg_parse.tag mapping
    /\ exists name spec m0,
         In (name, spec) mapping
         /\ In m0 (yielded (match_ fuel spec s))
         /\ m = mkMatch (VDict [(name, converted m0)]) (captured m0) (rest m0).
Proof.
  intros fuel mapping s m H. split; [reflexivity|].
  unfold arg_parse.record in H. cbn [match_] in H. unfold NamedOr_match in H.
  apply in_gen_for in H. destruct H as ([name spec] & Hs & Hm).
  apply in_map_iff in Hs. destruct Hs as ([name' o] & Heq & Ho).
  simpl in Heq. inversion Heq; subst.
  apply in_gen_map in Hm. destruct Hm as (m0 & Hm0 & ->).
  exists name, o, m0. split; [exact Ho|]. split; [exact Hm0|reflexivity].
Qed.

Lemma record_matches_one_option_witness :
  In (mkMatch (VDict [(lit "n", VInt 5)]) (lit "5") [])
     (yielded (match_ 0 (arg_parse.record [(lit "w", End); (lit "n", Integer)])
                      (lit "5")))
  /\ arg_parse.record [(lit "w", End); (lit "n", Integer)] =
       arg_parse.tag [(lit "w", End); (lit "n", Integer)]
  /\ exists name spec m0,
       In (name, spec) [(lit "w", End); (lit "n", Integer)]
       /\ In m0 (yielded (match_ 0 spec (lit "5")))
       /\ mkMatch (VDict [(lit "n", VInt 5)]) (lit "5") [] =
            mkMatch (VDict [(name, converted m0)]) (captured m0) (rest m0).
Proof.
  split; [left; reflexivity|].
  apply (@record_matches_one_option 0 [(lit "w", End); (lit "n", Integer)]
           (lit "5") (mkMatch (VDict [(lit "n", VInt 5)]) (lit "5") [])).
  left. reflexivity.
Defined.

(** X26: a result of [NamedAnd] comes from one match per field, each
    field matched on the rest of the previous one; its dict pairs the
    declared names, in order, with the capturing values only, so a
    non-capturing field hands its name to the next value. *)
Theorem NamedAnd_zips_names_with_values :
  forall fuel d s m,
    In m (yielded (match_ fuel (NamedAnd d) s)) ->
    exists path,
      admissible (map (fun p => match_ fuel (snd p)) d) s path
      /\ converted m =
           VDict (combine (map fst d)
                          (filter is_capturing (map converted path)))
      /\ captured m = join_captured path.
Proof.
  intros fuel d s m H. cbn [match_] in H. unfold NamedAnd_match in H.
  apply in_gen_map in H. destruct H as (m0 & Hm0 & ->).
  rewrite !map_map in Hm0. simpl in Hm0.
  apply Sequence_match_result in Hm0. destruct Hm0 as (path & Hadm & ->).
  exists path. split; [exact Hadm|]. split; [|reflexivity].
  rewrite map_map. reflexivity.
Qed.

Lemma NamedAnd_zips_names_with_values_witness :
  In (mkMatch (VDict [(lit "a", VInt 2)]) (lit "x 2") [])
     (yielded (match_ 0 (NamedAnd [(lit "a", NonCapturing Word);
                                   (lit "b", Integer)]) (lit "x 2")))
  /\ exists path,
       admissible (map (fun p => match_ 0 (snd p))
                       [(lit "a", NonCapturing Word); (lit "b", Integer)])
                  (lit "x 2") path
       /\ VDict [(lit "a", VInt 2)] =
            VDict (combine (map fst [(lit "a", NonCapturing Word);
                                     (lit "b", Integer)])
                           (filter is_capturing (map converted path)))
       /\ lit "x 2" = join_captured path.
Proof.
  split; [left; reflexivity|].
  apply (@NamedAnd_zips_names_with_values 0
           [(lit "a", NonCapturing Word); (lit "b", Integer)] (lit "x 2")
           (mkMatch (VDict [(lit "a", VInt 2)]) (lit "x 2") [])).
  left. reflexivity.
Defined.

(** ** Prefix specs *)

Lemma removelast_map {A B} (f : A -> B) l :
  removelast (map f l) = map f (removelast l).
Proof.
  induction l as [|x l IH]; [reflexivity|].
  destruct l as [|y l]; [reflexivity|].
  change (f x :: removelast (map f (y :: l)) = f x :: map f (removelast (y :: l))).
  rewrite IH. reflexivity.
Qed.

Lemma removelast_seq start n : removelast (seq start n) = seq start (n - 1).
Proof.
  destruct n as [|n]; [reflexivity|].
  rewrite seq_S, removelast_last. f_equal. lia.
Qed.

Lemma proper_prefix_matches s :
  map (prefix_match s) (removelast (nonempty_prefixes s)) =
    map (split_match s) (seq 1 (length s - 1)).
Proof.
  unfold nonempty_prefixes. rewrite removelast_map, removelast_seq, map_map.
  apply map_ext_in. intros i Hi. apply in_seq in Hi.
  apply prefix_match_firstn. lia.
Qed.

(** X27: [String] yields the non-empty proper prefixes of its input,
    longest first, each converted to itself: it never consumes the whole
    input, and yields nothing on an input shorter than two characters. *)
Theorem String_yields_proper_prefixes :
  forall fuel s,
    match_ fuel String s =
      (rev (map (prefix_match s) (removelast (nonempty_prefixes s))),
       Finished).
Proof.
  intros fuel s. cbn [match_]. unfold String_match, range_down.
  rewrite proper_prefix_matches, map_rev. reflexivity.
Qed.

(** X28: on an input without any excluded character, [StringWithout]
    yields the non-empty proper prefixes, shortest first, and never the
    whole input: the loop that looks for an excluded character ends on
    the last index. *)
Theorem StringWithout_clean_input :
  forall fuel exclude s,
    existsb (excluded exclude) s = false ->
    match_ fuel (StringWithout exclude) s =
      (map (prefix_match s) (removelast (nonempty_prefixes s)), Finished).
Proof.
  intros fuel exclude s H. cbn [match_]. rewrite proper_prefix_matches.
  unfold StringWithout_match. destruct s as [|c s]; [reflexivity|].
  cbv zeta. rewrite (first_bad_index_exhausted exclude (c :: s) 0 0 H).
  reflexivity.
Qed.

Lemma StringWithout_clean_input_witness :
  match_ 0 (StringWithout (lit "|")) (lit "abc") =
    (map (prefix_match (lit "abc")) (removelast (nonempty_prefixes (lit "abc"))),
     Finished).
Proof.
  apply (@StringWithout_clean_input 0 (lit "|") (lit "abc")). reflexivity.
Defined.

(** ** Termination of the repetition, nested repetitions included *)

Lemma Integer_terminates : terminates Integer_match.
Proof.
  intros s. destruct (Integer_match_stop s) as [H|[H _]]; rewrite H;
    discriminate.
Qed.

(** A non-empty chain of matches of a shrinking subspec leaves a rest
    strictly shorter than the input. *)
Lemma admissible_repeat_shrinks subspec :
  shrinks subspec ->
  forall path s m,
    admissible (repeat subspec (length path)) s path ->
    last_of path = Some m ->
    length (rest m) < length s.
Proof.
  intros Hs. induction path as [|p path IH]; intros s m Hadm Hlast;
    [discriminate|].
  simpl in Hadm. inversion Hadm as [|? ? ? ? ? Hp Hrest]; subst.
  rewrite last_of_cons in Hlast. apply Hs in Hp.
  destruct (last_of path) as [m'|] eqn:El.
  - inversion Hlast; subst. specialize (IH _ _ Hrest eq_refl). lia.
  - inversion Hlast; subst. exact Hp.
Qed.

Lemma OneOrMore_shrinks subspec fuel :
  shrinks subspec -> shrinks (OneOrMore_match subspec fuel).
Proof.
  intros Hs s m H. unfold OneOrMore_match, gen_filter, yielded in H.
  simpl in H. apply filter_In in H. destruct H as [H Hne].
  unfold ZeroOrMore_match in H. apply in_gen_map in H.
  destruct H as (h & Hh & ->).
  destruct (traverse_yields subspec fuel s []) as (longer & Hy & Hl).
  rewrite Hy in Hh. destruct Hh as [<-|Hh]; [discriminate|].
  destruct (Hl h Hh) as (m0 & ext & -> & Hadm). cbn [app of_history rest].
  destruct (last_of (m0 :: ext)) as [lm|] eqn:El.
  - apply (@admissible_repeat_shrinks subspec Hs (m0 :: ext) s lm);
      assumption.
  - apply last_of_none in El. discriminate.
Qed.

(** C8: when every match of [X] leaves a rest strictly shorter than its
    input, and matching [X] itself comes to an end on the strings no
    longer than [s], the unrolling of [ZeroOrMore(X)] on [s] is at most
    [len(s)] deep: with that budget it comes to an end, having yielded
    finitely many results, and any larger budget yields the same. *)
Theorem ZeroOrMore_terminates :
  forall fuel X s,
    shrinks (match_ fuel X) ->
    (forall s', length s' <= length s ->
                stop (match_ fuel X s') <> Unfinished) ->
    length s <= fuel ->
    stop (match_ fuel (ZeroOrMore X) s) <> Unfinished
    /\ forall budget,
         length s <= budget ->
         ZeroOrMore_match (match_ fuel X) budget s =
           match_ fuel (ZeroOrMore X) s.
Proof.
  intros fuel X s Hshrink Hterm Hlen. cbn [match_]. split.
  - unfold ZeroOrMore_match. rewrite stop_gen_map.
    apply (traverse_terminates_within Hshrink); assumption.
  - intros budget Hb. unfold ZeroOrMore_match.
    rewrite (traverse_budget Hshrink (fuel:=budget) (fuel':=fuel)) by assumption.
    reflexivity.
Qed.

Lemma ZeroOrMore_terminates_witness :
  shrinks (match_ 3 (OneOrMore Integer))
  /\ (forall s', length s' <= length (lit "1 2") ->
                 stop (match_ 3 (OneOrMore Integer) s') <> Unfinished)
  /\ length (lit "1 2") <= 3
  /\ stop (match_ 3 (ZeroOrMore (OneOrMore Integer)) (lit "1 2"))
       <> Unfinished.
Proof.
  assert (Hs : shrinks (match_ 3 (OneOrMore Integer)))
    by (apply OneOrMore_shrinks; apply Integer_shrinks).
  assert (Ht : forall s', length s' <= length (lit "1 2") ->
                          stop (match_ 3 (OneOrMore Integer) s') <> Unfinished).
  { intros s' Hl. cbn [match_].
    change (stop (traverse Integer_match 3 s' []) <> Unfinished).
    apply (traverse_terminates Integer_shrinks);
      [exact Integer_terminates|exact Hl]. }
  split; [exact Hs|]. split; [exact Ht|]. split; [apply le_n|].
  apply (proj1 (@ZeroOrMore_terminates 3 (OneOrMore Integer) (lit "1 2")
                  Hs Ht (le_n 3))).
Defined.

(** Strict shrinking alone does not make the unrolling end: every match
    of [Sequence([ZeroOrMore(End()), Integer()])] consumes a digit, yet
    on the empty string it never comes to an end itself, and so neither
    does the repetition over it, whatever the budget. *)
Theorem shrinking_subspec_need_not_terminate :
  (forall fuel, shrinks (match_ fuel (Sequence [ZeroOrMore End; Integer])))
  /\ (forall fuel,
        stop (match_ fuel (ZeroOrMore (Sequence [ZeroOrMore End; Integer])) [])
          = Unfinished).
Proof.
  split.
  - intros fuel s m H. cbn [match_ map] in H.
    apply Sequence_match_in in H. destruct H as (path & Hp & ->).
    apply nested_loops_admissible in Hp.
    inversion Hp as [|? ? ? m1 ms1 Hm1 Hrest1]; subst.
    inversion Hrest1 as [|? ? ? m2 ms2 Hm2 Hrest2]; subst.
    inversion Hrest2; subst. cbn [result_of rest last_of].
    apply Integer_shrinks in Hm2.
    pose proof (@partitions_rest_le _ _ _
                  (@ZeroOrMore_partitions End_match fuel End_partitions) Hm1)
      as Hle.
    lia.
  - intros fuel. cbn [match_ map].
    change (stop (traverse (Sequence_match [ZeroOrMore_match End_match fuel;
                                            Integer_match]) fuel [] [])
            = Unfinished).
    assert (HX : Sequence_match [ZeroOrMore_match End_match fuel; Integer_match]
                   [] = ([], Unfinished)).
    { rewrite Sequence_match_cons. unfold frontier, drain.
      pose proof (ZeroOrMore_End_unfinished fuel) as Hz.
      cbn [match_] in Hz. unfold stop in Hz. rewrite Hz. reflexivity. }
    revert HX.
    generalize (Sequence_match [ZeroOrMore_match End_match fuel; Integer_match]).
    intros X HX.
    destruct fuel as [|fuel']; cbn [traverse]; rewrite HX; reflexivity.
Qed.
